(** * GameForge AI system: behaviour trees, navigation graph, agent locomotion

    A shallow embedding of the AI system of [src/web/public/app.js]
    (classes [Sequence] ... [BehaviorTree], [NavMeshNode], [NavMesh], [Agent],
    [AISystem]) together with the properties its specification states.

    Conventions of the embedding:
    - a JavaScript [number] holding a coordinate, a cost, a duration or a time
      step is a real number ([R]): rounding, NaN and overflow are not modelled;
      a [number] holding an array index or a count is a [nat], a node id is a
      [Z];
    - a [Map] that the code iterates ([NavMesh.nodes], [NavMeshNode.connections],
      [AISystem.agents]) is an association list in insertion order; a [Map]
      that is only read and written by key (the per-agent tables of the
      behaviour nodes, the blackboard, the A* score tables) is a [gmap];
    - an object that the code mutates is passed and returned explicitly. *)

From Stdlib Require Import Reals Lra Lia ZArith List.
From stdpp Require Import gmap strings list.

(** ** Numbers *)

Definition Rltb (a b : R) : bool := if Rlt_dec a b then true else false.
Definition Rleb (a b : R) : bool := if Rle_dec a b then true else false.

(** A number that may be [Infinity], as produced by [m.get(k) ?? Infinity]. *)
Inductive Score : Type :=
| Fin (x : R)
| Infinity.

Definition orInfinity (o : option R) : Score :=
  match o with
  | Some x => Fin x
  | None => Infinity
  end.

Definition score_add (s : Score) (c : R) : Score :=
  match s with
  | Fin x => Fin (x + c)
  | Infinity => Infinity
  end.

Definition score_lt (a b : Score) : bool :=
  match a, b with
  | Fin x, Fin y => Rltb x y
  | Fin _, Infinity => true
  | Infinity, _ => false
  end.

Definition Vec3 : Type := R * R * R.

Definition vx (v : Vec3) : R := fst (fst v).
Definition vy (v : Vec3) : R := snd (fst v).
Definition vz (v : Vec3) : R := snd v.

(** ** Insertion-ordered maps (JavaScript [Map] when it is iterated) *)

Section OMap.
Context {K V : Type} `{EqDecision K}.

Definition omap : Type := list (K * V).

Fixpoint omap_get (m : omap) (k : K) : option V :=
  match m with
  | [] => None
  | (k', v) :: m' => if decide (k' = k) then Some v else omap_get m' k
  end.

Definition omap_has (m : omap) (k : K) : bool :=
  match omap_get m k with
  | Some _ => true
  | None => false
  end.

(** [m.set(k, v)]: an existing key keeps its place, a new key goes last. *)
Fixpoint omap_set (m : omap) (k : K) (v : V) : omap :=
  match m with
  | [] => [(k, v)]
  | (k', v') :: m' =>
      if decide (k' = k) then (k', v) :: m' else (k', v') :: omap_set m' k v
  end.

Fixpoint omap_delete (m : omap) (k : K) : omap :=
  match m with
  | [] => []
  | (k', v') :: m' =>
      if decide (k' = k) then m' else (k', v') :: omap_delete m' k
  end.

Definition omap_keys (m : omap) : list K := map fst m.
End OMap.

Arguments omap : clear implicits.

(** ** Outcomes of code that loops or dereferences a missing object *)

Inductive Outcome (A : Type) : Type :=
| Ret (a : A)
| TypeError
| OutOfFuel.

Arguments Ret {A} a.
Arguments TypeError {A}.
Arguments OutOfFuel {A}.

(** ** Navigation graph *)

Module Nav.
Local Open Scope R_scope.

Record NavMeshNode : Type := mkNode {
  id : Z;
  position : Vec3;
  connections : omap Z R
}.

Definition addConnection (n : NavMeshNode) (nodeId : Z) (cost : R) : NavMeshNode :=
  mkNode (id n) (position n) (omap_set (connections n) nodeId cost).

Definition removeConnection (n : NavMeshNode) (nodeId : Z) : NavMeshNode :=
  mkNode (id n) (position n) (omap_delete (connections n) nodeId).

Record NavMesh : Type := mkMesh {
  vertices : list Vec3;
  indices : list (list nat);
  nodes : omap Z NavMeshNode
}.

Definition empty : NavMesh := mkMesh [] [] [].

Definition addNode (g : NavMesh) (i : Z) (p : Vec3) : NavMesh :=
  mkMesh (vertices g ++ [p]) (indices g) (omap_set (nodes g) i (mkNode i p [])).

(** [heuristic(a, b)], also the cost formula of [connectNodes]. *)
Definition heuristic (a b : Vec3) : R :=
  let dx := vx b - vx a in
  let dy := vy b - vy a in
  let dz := vz b - vz a in
  sqrt (dx * dx + dy * dy + dz * dz).

(** What [console.error] receives. *)
Inductive LogEntry : Type :=
| CannotConnect (fromId toId : Z)
| NoNavigationMesh.

(** [connectNodes(fromId, toId, bidirectional)]: the mesh after the call and
    the lines written to the console. *)
Definition connectNodes (g : NavMesh) (fromId toId : Z) (bidirectional : bool)
  : NavMesh * list LogEntry :=
  match omap_get (nodes g) fromId, omap_get (nodes g) toId with
  | Some fromNode, Some toNode =>
      let cost := heuristic (position fromNode) (position toNode) in
      let nodes1 := omap_set (nodes g) fromId (addConnection fromNode toId cost) in
      let nodes2 :=
        if bidirectional then
          (* [toNode] is the object fetched above; when [fromId = toId] it is
             the node that has just received the connection *)
          match omap_get nodes1 toId with
          | Some toNode' => omap_set nodes1 toId (addConnection toNode' fromId cost)
          | None => nodes1
          end
        else nodes1 in
      (mkMesh (vertices g) (indices g) nodes2, [])
  | _, _ => (g, [CannotConnect fromId toId])
  end.

Definition closer (position : Vec3) (acc : option NavMeshNode * Score) (node : NavMeshNode)
  : option NavMeshNode * Score :=
  let distance := heuristic position (Nav.position node) in
  if score_lt (Fin distance) (snd acc) then (Some node, Fin distance) else acc.

Definition getClosestNode (g : NavMesh) (position : Vec3) : option NavMeshNode :=
  fst (fold_left (closer position) (map snd (nodes g)) (None, Infinity)).

Definition getClosestPoint (g : NavMesh) (position : Vec3) : Vec3 :=
  match getClosestNode g position with
  | Some node => Nav.position node
  | None => (0, 0, 0)
  end.

(** [Math.floor(u * n)] for a value [u] of [Math.random()]. *)
Definition random_index (u : R) (n : nat) : nat := Z.to_nat (Int_part (u * INR n)).

(** [getRandomPoint()], given the value [u] that [Math.random()] returns.
    [Math.random()] lies in [0, 1), so the index is within [nodeIds] and the
    last two defaults are never reached. *)
Definition getRandomPoint (g : NavMesh) (u : R) : Vec3 :=
  match omap_keys (nodes g) with
  | [] => (0, 0, 0)
  | nodeIds =>
      match nodeIds !! random_index u (length nodeIds) with
      | Some randomId =>
          match omap_get (nodes g) randomId with
          | Some n => position n
          | None => (0, 0, 0)
          end
      | None => (0, 0, 0)
      end
  end.

(** *** A* *)

Record Search : Type := mkSearch {
  openSet : list Z;
  cameFrom : gmap Z Z;
  gScore : gmap Z R;
  fScore : gmap Z R
}.

(** The scan for the open node of lowest [fScore]; the earliest wins a tie. *)
Fixpoint lowest (fs : gmap Z R) (rest : list Z) (current : Z) (lowestFScore : Score) : Z :=
  match rest with
  | [] => current
  | nodeId :: rest' =>
      let score := orInfinity (fs !! nodeId) in
      if score_lt score lowestFScore
      then lowest fs rest' nodeId score
      else lowest fs rest' current lowestFScore
  end.

(** [l.splice(l.indexOf(x), 1)] for an [x] that occurs in [l]. *)
Fixpoint remove_first (x : Z) (l : list Z) : list Z :=
  match l with
  | [] => []
  | y :: l' => if decide (y = x) then l' else y :: remove_first x l'
  end.

Definition includes (l : list Z) (x : Z) : bool := bool_decide (x ∈ l).

(** The body of [currentNode.connections.forEach]. *)
Definition relax (g : NavMesh) (endNode : NavMeshNode) (current : Z)
    (st : Search) (edge : Z * R) : Outcome Search :=
  let '(neighborId, cost) := edge in
  let tentativeGScore := score_add (orInfinity (gScore st !! current)) cost in
  if score_lt tentativeGScore (orInfinity (gScore st !! neighborId)) then
    match tentativeGScore with
    | Fin t =>
        match omap_get (nodes g) neighborId with
        | Some neighbor =>
            Ret (mkSearch
                   (if includes (openSet st) neighborId
                    then openSet st else openSet st ++ [neighborId])
                   (<[neighborId := current]> (cameFrom st))
                   (<[neighborId := t]> (gScore st))
                   (<[neighborId := t + heuristic (position neighbor) (position endNode)]>
                      (fScore st)))
        | None => TypeError
        end
    | Infinity => Ret st
    end
  else Ret st.

Fixpoint relax_all (g : NavMesh) (endNode : NavMeshNode) (current : Z)
    (edges : list (Z * R)) (st : Search) : Outcome Search :=
  match edges with
  | [] => Ret st
  | e :: edges' =>
      match relax g endNode current st e with
      | Ret st' => relax_all g endNode current edges' st'
      | TypeError => TypeError
      | OutOfFuel => OutOfFuel
      end
  end.

Fixpoint reconstruct_loop (fuel : nat) (g : NavMesh) (cf : gmap Z Z) (current : Z)
    (path : list Vec3) : Outcome (list Vec3) :=
  match fuel with
  | O => OutOfFuel
  | S fuel' =>
      match cf !! current with
      | None => Ret path
      | Some prev =>
          match omap_get (nodes g) prev with
          | Some n => reconstruct_loop fuel' g cf prev (position n :: path)
          | None => TypeError
          end
      end
  end.

Definition reconstructPath (fuel : nat) (g : NavMesh) (cf : gmap Z Z) (current : Z)
  : Outcome (list Vec3) :=
  match omap_get (nodes g) current with
  | Some n => reconstruct_loop fuel g cf current [position n]
  | None => TypeError
  end.

(** The [while (openSet.length > 0)] loop; [budget] bounds the loop of
    [reconstructPath]. *)
Fixpoint search (fuel budget : nat) (g : NavMesh) (endNode : NavMeshNode) (st : Search)
  : Outcome (list Vec3) :=
  match fuel with
  | O => OutOfFuel
  | S fuel' =>
      match openSet st with
      | [] => Ret []
      | first :: rest =>
          let current := lowest (fScore st) rest first (orInfinity (fScore st !! first)) in
          if decide (current = id endNode) then reconstructPath budget g (cameFrom st) current
          else
            let st1 := mkSearch (remove_first current (openSet st))
                                (cameFrom st) (gScore st) (fScore st) in
            match omap_get (nodes g) current with
            | Some currentNode =>
                match relax_all g endNode current (connections currentNode) st1 with
                | Ret st2 => search fuel' budget g endNode st2
                | TypeError => TypeError
                | OutOfFuel => OutOfFuel
                end
            | None => TypeError
            end
      end
  end.

(** [findPath(startPosition, endPosition)]; each of its two loops may run
    [fuel] times. *)
Definition findPath (fuel : nat) (g : NavMesh) (startPosition endPosition : Vec3)
  : Outcome (list Vec3) :=
  match getClosestNode g startPosition, getClosestNode g endPosition with
  | Some startNode, Some endNode =>
      search fuel fuel g endNode
        (mkSearch [id startNode] ∅ {[ id startNode := 0 ]}
           {[ id startNode := heuristic (position startNode) (position endNode) ]})
  | _, _ => Ret []
  end.
End Nav.

(** ** Agents *)

Module Ag.
Local Open Scope R_scope.

Record Transform : Type := mkTransform {
  t_position : Vec3;
  t_rotation : option Vec3;
  t_scale : Vec3
}.

Record GameObject : Type := mkGameObject {
  name : string;
  transform : option Transform
}.

Record AgentConfig : Type := mkConfig {
  speed : R;
  turnSpeed : R;
  acceleration : R;
  stoppingDistance : R;
  obstacleAvoidanceRadius : R;
  maxSlopeAngle : R;
  targetTagToChase : option string;
  targetTagToFlee : option string;
  patrolPoints : option (list Vec3);
  detectionRadius : option R;
  fieldOfView : option R;
  hearingRadius : option R
}.

(** A blackboard value ([any] in the source), as far as the behaviours of
    this file store one. *)
Inductive Value : Type :=
| VIndex (n : nat)
| VNumber (x : R)
| VBoolean (b : bool)
| VString (s : string)
| VVector (v : Vec3).

(** The mutable fields of an [Agent]. Its [id] is fixed by the constructor
    and never written: it is the key under which the agent is registered and
    is passed next to this record. A waypoint is [None] where the code stored
    [undefined] ([points[0]] of an empty array); [behaviorTree] is the address
    of the tree object. *)
Record Agent : Type := mkAgent {
  gameObject : GameObject;
  config : AgentConfig;
  behaviorTree : option nat;
  path : list (option Vec3);
  currentPathIndex : nat;
  currentTarget : option Vec3;
  velocity : Vec3;
  blackboard : gmap string Value
}.

Definition new_Agent (go : GameObject) (c : AgentConfig) : Agent :=
  mkAgent go c None [] 0 None (0, 0, 0) ∅.

Definition setBehaviorTree (a : Agent) (t : nat) : Agent :=
  mkAgent (gameObject a) (config a) (Some t) (path a) (currentPathIndex a)
          (currentTarget a) (velocity a) (blackboard a).

Definition setPath (a : Agent) (p : list (option Vec3)) : Agent :=
  mkAgent (gameObject a) (config a) (behaviorTree a) p 0
          (currentTarget a) (velocity a) (blackboard a).

Definition getPath (a : Agent) : list (option Vec3) := path a.

Definition setTarget (a : Agent) (t : option Vec3) : Agent :=
  mkAgent (gameObject a) (config a) (behaviorTree a) (path a) (currentPathIndex a)
          t (velocity a) (blackboard a).

Definition getTarget (a : Agent) : option Vec3 := currentTarget a.

Definition setVelocity (a : Agent) (v : Vec3) : Agent :=
  mkAgent (gameObject a) (config a) (behaviorTree a) (path a) (currentPathIndex a)
          (currentTarget a) v (blackboard a).

Definition with_blackboard (a : Agent) (b : gmap string Value) : Agent :=
  mkAgent (gameObject a) (config a) (behaviorTree a) (path a) (currentPathIndex a)
          (currentTarget a) (velocity a) b.

Definition setBlackboardValue (a : Agent) (key : string) (v : Value) : Agent :=
  with_blackboard a (<[key := v]> (blackboard a)).

Definition getBlackboardValue (a : Agent) (key : string) : option Value :=
  blackboard a !! key.

Definition hasBlackboardValue (a : Agent) (key : string) : bool :=
  bool_decide (is_Some (blackboard a !! key)).

Definition clearBlackboardValue (a : Agent) (key : string) : Agent :=
  with_blackboard a (delete key (blackboard a)).

(** *** Library functions of [Math] on real numbers *)

Definition Math_sign (x : R) : R :=
  if Rltb 0 x then 1 else if Rltb x 0 then -1 else 0.

Definition Math_atan2 (y x : R) : R :=
  if Rltb 0 x then atan (y / x)
  else if Rltb x 0 then (if Rleb 0 y then atan (y / x) + PI else atan (y / x) - PI)
  else if Rltb 0 y then PI / 2
  else if Rltb y 0 then - (PI / 2)
  else 0.

(** [a % b]: the remainder of the division truncated towards zero. *)
Definition truncate (x : R) : Z :=
  if Rleb 0 x then Int_part x else (- Int_part (- x))%Z.

Definition js_rem (a b : R) : R := a - b * IZR (truncate (a / b)).

Definition getAngleDifference (a b : R) : R :=
  let diff := js_rem (b - a) 360 in
  let diff := if Rltb 180 diff then diff - 360 else diff in
  let diff := if Rltb diff (-180) then diff + 360 else diff in
  diff.

(** *** Locomotion *)

Definition with_motion (a : Agent) (tr : Transform) (v : Vec3) : Agent :=
  mkAgent (mkGameObject (name (gameObject a)) (Some tr)) (config a) (behaviorTree a)
          (path a) (currentPathIndex a) (currentTarget a) v (blackboard a).

Definition desiredVelocity (a : Agent) (position target : Vec3) : Vec3 :=
  let dx := vx target - vx position in
  let dy := vy target - vy position in
  let dz := vz target - vz position in
  let distance := sqrt (dx * dx + dy * dy + dz * dz) in
  (dx / distance * speed (config a),
   dy / distance * speed (config a),
   dz / distance * speed (config a)).

(** [moveTowards(target, deltaTime)]; [target] is [None] when the caller
    passes [undefined], whose first component cannot be read. *)
Definition moveTowards (a : Agent) (target : option Vec3) (deltaTime : R)
  : Outcome (Agent * bool) :=
  match transform (gameObject a) with
  | None => Ret (a, false)
  | Some tr =>
      match target with
      | None => TypeError
      | Some target =>
          let position := t_position tr in
          let dx := vx target - vx position in
          let dy := vy target - vy position in
          let dz := vz target - vz position in
          let distance := sqrt (dx * dx + dy * dy + dz * dz) in
          if Rleb distance (stoppingDistance (config a)) then
            Ret (setVelocity a (0, 0, 0), true)
          else
            let desired := desiredVelocity a position target in
            let k := acceleration (config a) in
            let v := velocity a in
            let v' := (vx v + (vx desired - vx v) * k * deltaTime,
                       vy v + (vy desired - vy v) * k * deltaTime,
                       vz v + (vz desired - vz v) * k * deltaTime) in
            let position' := (vx position + vx v' * deltaTime,
                              vy position + vy v' * deltaTime,
                              vz position + vz v' * deltaTime) in
            let rotation' :=
              if Rltb 0.001 (Rabs (vx v')) || Rltb 0.001 (Rabs (vz v')) then
                let targetRotationY := Math_atan2 (vx v') (vz v') * (180 / PI) in
                let currentRotationY := from_option vy 0 (t_rotation tr) in
                let angleDiff := getAngleDifference currentRotationY targetRotationY in
                let maxTurn := turnSpeed (config a) * deltaTime in
                let turnAmount := Rmin (Rabs angleDiff) maxTurn * Math_sign angleDiff in
                Some (from_option vx 0 (t_rotation tr),
                      currentRotationY + turnAmount,
                      from_option vz 0 (t_rotation tr))
              else t_rotation tr in
            Ret (with_motion a (mkTransform position' rotation' (t_scale tr)) v', false)
      end
  end.

Definition with_cursor (a : Agent) (p : list (option Vec3)) (i : nat) : Agent :=
  mkAgent (gameObject a) (config a) (behaviorTree a) p i
          (currentTarget a) (velocity a) (blackboard a).

(** [followPath(deltaTime)]; reading [path] beyond its end gives [undefined]. *)
Definition followPath (a : Agent) (deltaTime : R) : Outcome (Agent * bool) :=
  match path a with
  | [] => Ret (a, true)
  | _ =>
      let currentWaypoint := mjoin (path a !! currentPathIndex a) in
      match moveTowards a currentWaypoint deltaTime with
      | Ret (a', reachedWaypoint) =>
          if reachedWaypoint then
            let i := S (currentPathIndex a') in
            if (length (path a') <=? i)%nat then Ret (with_cursor a' [] 0, true)
            else Ret (with_cursor a' (path a') i, false)
          else Ret (a', false)
      | TypeError => TypeError
      | OutOfFuel => OutOfFuel
      end
  end.
End Ag.

(** ** Behaviour trees *)

Global Instance Outcome_ret : MRet Outcome := fun _ a => Ret a.
Global Instance Outcome_bind : MBind Outcome := fun _ _ k o =>
  match o with
  | Ret a => k a
  | TypeError => TypeError
  | OutOfFuel => OutOfFuel
  end.

(** What a behaviour can touch while it ticks one agent: the agent itself, the
    navigation mesh of the [AISystem] singleton, and the values that the
    coming calls of [Math.random()] return. *)
Record World : Type := mkWorld {
  self : Ag.Agent;
  mesh : option Nav.NavMesh;
  randoms : nat -> R
}.

Definition with_self (w : World) (a : Ag.Agent) : World :=
  mkWorld a (mesh w) (randoms w).

(** [Math.random()] *)
Definition Math_random (w : World) : R * World :=
  (randoms w 0%nat, mkWorld (self w) (mesh w) (fun n => randoms w (S n))).

Module BT.

Inductive BehaviorStatus : Type := SUCCESS | FAILURE | RUNNING.

Global Instance BehaviorStatus_eq_dec : EqDecision BehaviorStatus.
Proof. solve_decision. Defined.

Definition ActionFn : Type := string -> World -> R -> Outcome (World * BehaviorStatus).
Definition Hook : Type := string -> World -> Outcome World.

(** The node classes, each with its per-agent table. One node object lies at
    one place of one tree; it is shared by all the agents that run the tree. *)
#[warnings="-register-all"] Inductive BehaviorNode : Type :=
| Sequence (children : list BehaviorNode) (currentIndex : gmap string nat)
| Selector (children : list BehaviorNode) (currentIndex : gmap string nat)
| Inverter (child : BehaviorNode)
| Condition (condition : string -> World -> bool)
| Action (action : ActionFn) (onEnter onExit : option Hook) (isRunning : gmap string bool)
| Parallel (children : list BehaviorNode) (requiredSuccesses : Z)
           (statuses : gmap string (list BehaviorStatus))
| RepeatUntilFailure (child : BehaviorNode)
| Wait (duration : R) (timeElapsed : gmap string R).

(** Constructors as the source has them: fresh tables. *)
Definition new_Sequence (children : list BehaviorNode) : BehaviorNode := Sequence children ∅.
Definition new_Selector (children : list BehaviorNode) : BehaviorNode := Selector children ∅.
Definition new_Action (action : ActionFn) (onEnter onExit : option Hook) : BehaviorNode :=
  Action action onEnter onExit ∅.
Definition new_Parallel (children : list BehaviorNode) (requiredSuccesses : option Z)
  : BehaviorNode :=
  let r := default (-1)%Z requiredSuccesses in
  Parallel children (if (r <? 0)%Z then Z.of_nat (length children) else r) ∅.
Definition new_Wait (duration : R) : BehaviorNode := Wait duration ∅.

Definition run_hook (h : option Hook) (agentId : string) (w : World) : Outcome World :=
  match h with
  | Some f => f agentId w
  | None => Ret w
  end.

(** [children.forEach(child => child.reset(agent))] *)
Fixpoint reset_each (rs : BehaviorNode -> World -> Outcome (BehaviorNode * World))
    (children : list BehaviorNode) (w : World) : Outcome (list BehaviorNode * World) :=
  match children with
  | [] => Ret ([], w)
  | c :: rest =>
      '(c', w1) ← rs c w;
      '(rest', w2) ← reset_each rs rest w1;
      Ret (c' :: rest', w2)
  end.

Fixpoint reset (n : BehaviorNode) (agentId : string) (w : World) {struct n}
  : Outcome (BehaviorNode * World) :=
  match n with
  | Sequence children currentIndex =>
      '(children', w') ← reset_each (fun c w => reset c agentId w) children w;
      Ret (Sequence children' (delete agentId currentIndex), w')
  | Selector children currentIndex =>
      '(children', w') ← reset_each (fun c w => reset c agentId w) children w;
      Ret (Selector children' (delete agentId currentIndex), w')
  | Inverter child =>
      '(child', w') ← reset child agentId w;
      Ret (Inverter child', w')
  | Condition condition => Ret (Condition condition, w)
  | Action action onEnter onExit isRunning =>
      let wasRunning := default false (isRunning !! agentId) in
      w' ← (if wasRunning then run_hook onExit agentId w else Ret w);
      Ret (Action action onEnter onExit (delete agentId isRunning), w')
  | Parallel children requiredSuccesses statuses =>
      '(children', w') ← reset_each (fun c w => reset c agentId w) children w;
      Ret (Parallel children' requiredSuccesses (delete agentId statuses), w')
  | RepeatUntilFailure child =>
      '(child', w') ← reset child agentId w;
      Ret (RepeatUntilFailure child', w')
  | Wait duration timeElapsed =>
      Ret (Wait duration (delete agentId timeElapsed), w)
  end.

Definition Tick : Type := BehaviorNode -> World -> Outcome (BehaviorNode * World * BehaviorStatus).

(** [children[index].execute(agent, deltaTime)] *)
Fixpoint execute_at (ex : Tick) (children : list BehaviorNode) (index : nat) (w : World)
  : Outcome (list BehaviorNode * World * BehaviorStatus) :=
  match children, index with
  | [], _ => TypeError
  | c :: rest, O =>
      '(c', w', status) ← ex c w;
      Ret (c' :: rest, w', status)
  | c :: rest, S index' =>
      '(rest', w', status) ← execute_at ex rest index' w;
      Ret (c :: rest', w', status)
  end.

(** The three counters of [Parallel.execute]. *)
Record Counts : Type := mkCounts {
  runningCount : nat;
  successCount : nat;
  failureCount : nat
}.

Definition count_status (s : option BehaviorStatus) (c : Counts) : Counts :=
  match s with
  | Some RUNNING => mkCounts (S (runningCount c)) (successCount c) (failureCount c)
  | Some SUCCESS => mkCounts (runningCount c) (S (successCount c)) (failureCount c)
  | _ => mkCounts (runningCount c) (successCount c) (S (failureCount c))
  end.

(** [this.children.forEach((child, index) => ...)] of [Parallel.execute],
    from position [index] on. *)
Fixpoint parallel_each (ex : Tick) (children : list BehaviorNode) (index : nat)
    (statuses : list BehaviorStatus) (w : World) (c : Counts)
  : Outcome (list BehaviorNode * list BehaviorStatus * World * Counts) :=
  match children with
  | [] => Ret ([], statuses, w, c)
  | child :: rest =>
      '(child', statuses1, w1) ←
        (if decide (statuses !! index = Some RUNNING) then
           '(child', w1, status) ← ex child w;
           Ret (child', <[index := status]> statuses, w1)
         else Ret (child, statuses, w));
      '(rest', statuses2, w2, c2) ←
        parallel_each ex rest (S index) statuses1 w1
          (count_status (statuses1 !! index) c);
      Ret (child' :: rest', statuses2, w2, c2)
  end.

Fixpoint execute (n : BehaviorNode) (agentId : string) (w : World) (deltaTime : R)
    {struct n} : Outcome (BehaviorNode * World * BehaviorStatus) :=
  match n with
  | Sequence children currentIndex =>
      let currentIndex :=
        if bool_decide (is_Some (currentIndex !! agentId)) then currentIndex
        else <[agentId := 0%nat]> currentIndex in
      let index := default 0%nat (currentIndex !! agentId) in
      if (length children <=? index)%nat then Ret (Sequence children currentIndex, w, SUCCESS)
      else
        '(children', w', status) ←
          execute_at (fun c w => execute c agentId w deltaTime) children index w;
        match status with
        | RUNNING => Ret (Sequence children' currentIndex, w', RUNNING)
        | FAILURE => Ret (Sequence children' (<[agentId := 0%nat]> currentIndex), w', FAILURE)
        | SUCCESS =>
            let currentIndex := <[agentId := (index + 1)%nat]> currentIndex in
            if (length children <=? index + 1)%nat
            then Ret (Sequence children' (<[agentId := 0%nat]> currentIndex), w', SUCCESS)
            else Ret (Sequence children' currentIndex, w', RUNNING)
        end
  | Selector children currentIndex =>
      let currentIndex :=
        if bool_decide (is_Some (currentIndex !! agentId)) then currentIndex
        else <[agentId := 0%nat]> currentIndex in
      let index := default 0%nat (currentIndex !! agentId) in
      if (length children <=? index)%nat then Ret (Selector children currentIndex, w, FAILURE)
      else
        '(children', w', status) ←
          execute_at (fun c w => execute c agentId w deltaTime) children index w;
        match status with
        | RUNNING => Ret (Selector children' currentIndex, w', RUNNING)
        | SUCCESS => Ret (Selector children' (<[agentId := 0%nat]> currentIndex), w', SUCCESS)
        | FAILURE =>
            let currentIndex := <[agentId := (index + 1)%nat]> currentIndex in
            if (length children <=? index + 1)%nat
            then Ret (Selector children' (<[agentId := 0%nat]> currentIndex), w', FAILURE)
            else Ret (Selector children' currentIndex, w', RUNNING)
        end
  | Inverter child =>
      '(child', w', status) ← execute child agentId w deltaTime;
      Ret (Inverter child', w',
           match status with
           | RUNNING => RUNNING
           | SUCCESS => FAILURE
           | FAILURE => SUCCESS
           end)
  | Condition condition =>
      Ret (Condition condition, w, if condition agentId w then SUCCESS else FAILURE)
  | Action action onEnter onExit isRunning =>
      let wasRunning := default false (isRunning !! agentId) in
      w1 ← (if negb wasRunning then run_hook onEnter agentId w else Ret w);
      let isRunning := <[agentId := true]> isRunning in
      '(w2, status) ← action agentId w1 deltaTime;
      if decide (status = RUNNING) then Ret (Action action onEnter onExit isRunning, w2, status)
      else
        let isRunning := <[agentId := false]> isRunning in
        w3 ← run_hook onExit agentId w2;
        Ret (Action action onEnter onExit isRunning, w3, status)
  | Parallel children requiredSuccesses statuses =>
      let statuses :=
        if bool_decide (is_Some (statuses !! agentId)) then statuses
        else <[agentId := replicate (length children) RUNNING]> statuses in
      let vector := default [] (statuses !! agentId) in
      '(children', vector', w', c) ←
        parallel_each (fun c w => execute c agentId w deltaTime) children 0 vector w
          (mkCounts 0 0 0);
      let statuses := <[agentId := vector']> statuses in
      if (requiredSuccesses <=? Z.of_nat (successCount c))%Z then
        Ret (Parallel children' requiredSuccesses (delete agentId statuses), w', SUCCESS)
      else if (Z.of_nat (length children) - requiredSuccesses <? Z.of_nat (failureCount c))%Z then
        Ret (Parallel children' requiredSuccesses (delete agentId statuses), w', FAILURE)
      else Ret (Parallel children' requiredSuccesses statuses, w', RUNNING)
  | RepeatUntilFailure child =>
      '(child', w', status) ← execute child agentId w deltaTime;
      match status with
      | FAILURE => Ret (RepeatUntilFailure child', w', FAILURE)
      | SUCCESS =>
          '(child'', w'') ← reset child' agentId w';
          Ret (RepeatUntilFailure child'', w'', RUNNING)
      | RUNNING => Ret (RepeatUntilFailure child', w', RUNNING)
      end
  | Wait duration timeElapsed =>
      let timeElapsed :=
        if bool_decide (is_Some (timeElapsed !! agentId)) then timeElapsed
        else <[agentId := 0%R]> timeElapsed in
      let elapsed := (default 0 (timeElapsed !! agentId) + deltaTime)%R in
      let timeElapsed := <[agentId := elapsed]> timeElapsed in
      if Rleb duration elapsed then Ret (Wait duration (delete agentId timeElapsed), w, SUCCESS)
      else Ret (Wait duration timeElapsed, w, RUNNING)
  end.

Record BehaviorTree : Type := mkTree { root : BehaviorNode }.

Definition tree_execute (t : BehaviorTree) (agentId : string) (w : World) (deltaTime : R)
  : Outcome (BehaviorTree * World * BehaviorStatus) :=
  '(r, w', status) ← execute (root t) agentId w deltaTime;
  Ret (mkTree r, w', status).

Definition tree_reset (t : BehaviorTree) (agentId : string) (w : World)
  : Outcome (BehaviorTree * World) :=
  '(r, w') ← reset (root t) agentId w;
  Ret (mkTree r, w').
End BT.

(** ** The orchestrator *)

Module Sys.
Import BT.
Local Open Scope R_scope.

Record AISystem : Type := mkSystem {
  agents : omap string Ag.Agent;
  navigationMesh : option Nav.NavMesh;
  isInitialized : bool
}.

(** The program state the orchestrator works on: the singleton, the
    [BehaviorTree] objects by address (an agent holds the address of its
    tree, so that one tree can serve many agents), and the coming values of
    [Math.random()]. *)
Record State : Type := mkState {
  system : AISystem;
  trees : gmap nat BehaviorTree;
  entropy : nat -> R
}.

Definition with_system (st : State) (s : AISystem) : State :=
  mkState s (trees st) (entropy st).

Definition initialize (st : State) (m : option Nav.NavMesh) : State :=
  if isInitialized (system st) then st
  else with_system st (mkSystem (agents (system st)) m true).

Definition createAgent (st : State) (id : string) (go : Ag.GameObject) (c : Ag.AgentConfig)
  : State :=
  with_system st
    (mkSystem (omap_set (agents (system st)) id (Ag.new_Agent go c))
              (navigationMesh (system st)) (isInitialized (system st))).

Definition removeAgent (st : State) (id : string) : State :=
  with_system st
    (mkSystem (omap_delete (agents (system st)) id)
              (navigationMesh (system st)) (isInitialized (system st))).

Definition getAgent (st : State) (id : string) : option Ag.Agent :=
  omap_get (agents (system st)) id.

Definition setNavigationMesh (st : State) (m : Nav.NavMesh) : State :=
  with_system st (mkSystem (agents (system st)) (Some m) (isInitialized (system st))).

Definition getNavigationMesh (st : State) : option Nav.NavMesh :=
  navigationMesh (system st).

(** [AISystem.findPath(start, end)] with what it writes to the console. *)
Definition findPath (fuel : nat) (m : option Nav.NavMesh) (start finish : Vec3)
  : Outcome (list Vec3) * list Nav.LogEntry :=
  match m with
  | None => (Ret [], [Nav.NoNavigationMesh])
  | Some g => (Nav.findPath fuel g start finish, [])
  end.



(** [agent.update(deltaTime)] for the agent registered under [id]. *)
Definition Agent_update (st : State) (id : string) (deltaTime : R) : Outcome State :=
  match omap_get (agents (system st)) id with
  | None => Ret st
  | Some a =>
      match Ag.behaviorTree a with
      | None => Ret st
      | Some addr =>
          match trees st !! addr with
          | None => TypeError
          | Some t =>
              '(t', w', _) ←
                tree_execute t id (mkWorld a (navigationMesh (system st)) (entropy st))
                  deltaTime;
              Ret (mkState
                     (mkSystem (omap_set (agents (system st)) id (self w'))
                               (mesh w') (isInitialized (system st)))
                     (<[addr := t']> (trees st))
                     (randoms w'))
          end
      end
  end.

Fixpoint update_each (ids : list string) (st : State) (deltaTime : R) : Outcome State :=
  match ids with
  | [] => Ret st
  | id :: rest =>
      st' ← Agent_update st id deltaTime;
      update_each rest st' deltaTime
  end.

(** [update(deltaTime)] *)
Definition update (st : State) (deltaTime : R) : Outcome State :=
  if isInitialized (system st)
  then update_each (omap_keys (agents (system st))) st deltaTime
  else Ret st.

(** *** Behaviour factories

    The keys [patrolIndex] and [chaseTimer] are written by these behaviours
    only, with an index and a number; a blackboard that holds anything else
    under them is outside the model and reported as [TypeError]. *)

Section Factories.
(** the bound on the loops of [NavMesh.findPath] *)
Variable fuel : nat.

Definition patrol_action (points : list Vec3) (loop : bool) : ActionFn :=
  fun agentId w deltaTime =>
    let a := self w in
    let a := if Ag.hasBlackboardValue a "patrolIndex" then a
             else Ag.setBlackboardValue a "patrolIndex" (Ag.VIndex 0) in
    match Ag.getBlackboardValue a "patrolIndex" with
    | Some (Ag.VIndex index) =>
        let restart (a : Ag.Agent) :=
          Ag.setPath (Ag.setBlackboardValue a "patrolIndex" (Ag.VIndex 0)) [points !! 0%nat] in
        if (length points <=? index)%nat && negb loop then Ret (with_self w a, SUCCESS)
        else
          let a := if (length points <=? index)%nat then restart a else a in
          let currentTarget := points !! index in
          let a := if (length (Ag.getPath a) =? 0)%nat
                   then Ag.setPath a [currentTarget] else a in
          '(a, completed) ← Ag.followPath a deltaTime;
          if completed : bool then
            let a := Ag.setBlackboardValue a "patrolIndex" (Ag.VIndex (index + 1)) in
            if (index + 1 <? length points)%nat
            then Ret (with_self w (Ag.setPath a [points !! (index + 1)%nat]), RUNNING)
            else if loop then Ret (with_self w (restart a), RUNNING)
            else Ret (with_self w a, SUCCESS)
          else Ret (with_self w a, RUNNING)
    | _ => TypeError
    end.

Definition patrol_onEnter (points : list Vec3) : Hook :=
  fun agentId w =>
    let a := Ag.setBlackboardValue (self w) "patrolIndex" (Ag.VIndex 0) in
    Ret (with_self w (if (0 <? length points)%nat then Ag.setPath a [points !! 0%nat] else a)).

Definition patrol_onExit : Hook :=
  fun agentId w => Ret (with_self w (Ag.setPath (self w) [])).

Definition createPatrolBehavior (points : list Vec3) (loop : bool) : BehaviorNode :=
  new_Action (patrol_action points loop) (Some (patrol_onEnter points)) (Some patrol_onExit).

Definition chase_action (targetSelector : string -> World -> option Vec3) (updateRate : R)
  : ActionFn :=
  fun agentId w deltaTime =>
    let a := self w in
    let a := if Ag.hasBlackboardValue a "chaseTimer" then a
             else Ag.setBlackboardValue a "chaseTimer" (Ag.VNumber 0) in
    match Ag.getBlackboardValue a "chaseTimer" with
    | Some (Ag.VNumber timer) =>
        let timer := timer + deltaTime in
        let a := Ag.setBlackboardValue a "chaseTimer" (Ag.VNumber timer) in
        let follow (a : Ag.Agent) : Outcome (World * BehaviorStatus) :=
          '(a, pathCompleted) ← Ag.followPath a deltaTime;
          Ret (with_self w a,
               if bool_decide (is_Some (Ag.getTarget a)) then RUNNING else SUCCESS) in
        if Rleb updateRate timer then
          let a := Ag.setBlackboardValue a "chaseTimer" (Ag.VNumber 0) in
          match targetSelector agentId (with_self w a) with
          | None => Ret (with_self w a, FAILURE)
          | Some targetPosition =>
              let a := Ag.setTarget a (Some targetPosition) in
              match mesh w, Ag.transform (Ag.gameObject a) with
              | Some g, Some tr =>
                  path ← fst (findPath fuel (Some g) (Ag.t_position tr) targetPosition);
                  if (0 <? length path)%nat
                  then follow (Ag.setPath a (map Some path))
                  else follow (Ag.setPath a [Some targetPosition])
              | _, _ => follow (Ag.setPath a [Some targetPosition])
              end
          end
        else follow a
    | _ => TypeError
    end.

Definition chase_onEnter : Hook :=
  fun agentId w =>
    Ret (with_self w (Ag.setBlackboardValue (self w) "chaseTimer" (Ag.VNumber 0))).

Definition chase_onExit : Hook :=
  fun agentId w =>
    Ret (with_self w
           (Ag.clearBlackboardValue (Ag.setTarget (Ag.setPath (self w) []) None)
              "chaseTimer")).

Definition createChaseBehavior (targetSelector : string -> World -> option Vec3)
    (updateRate : R) : BehaviorNode :=
  new_Action (chase_action targetSelector updateRate) (Some chase_onEnter) (Some chase_onExit).

Definition wander_retarget (radius minDistance : R) (w : World) : World :=
  let a := self w in
  let currentPosition :=
    from_option Ag.t_position (0, 0, 0) (Ag.transform (Ag.gameObject a)) in
  match mesh w with
  | Some g =>
      let '(u, w) := Math_random w in
      with_self w (Ag.setPath a [Some (Nav.getRandomPoint g u)])
  | None =>
      let '(u1, w) := Math_random w in
      let angle := u1 * PI * 2 in
      let '(u2, w) := Math_random w in
      let distance := minDistance + u2 * (radius - minDistance) in
      with_self w
        (Ag.setPath a [Some (vx currentPosition + cos angle * distance,
                             vy currentPosition,
                             vz currentPosition + sin angle * distance)])
  end.

Definition wander_action (radius minDistance : R) : ActionFn :=
  fun agentId w deltaTime =>
    if (length (Ag.getPath (self w)) =? 0)%nat
    then Ret (wander_retarget radius minDistance w, RUNNING)
    else
      '(a, completed) ← Ag.followPath (self w) deltaTime;
      if completed : bool
      then Ret (wander_retarget radius minDistance (with_self w a), RUNNING)
      else Ret (with_self w a, RUNNING).

Definition createWanderBehavior (radius minDistance : R) : BehaviorNode :=
  new_Action (wander_action radius minDistance) None None.

Definition flee_action (targetSelector : string -> World -> option Vec3) (fleeDistance : R)
  : ActionFn :=
  fun agentId w deltaTime =>
    let a := self w in
    match targetSelector agentId w with
    | None => Ret (w, SUCCESS)
    | Some targetPosition =>
        match Ag.transform (Ag.gameObject a) with
        | None => Ret (w, FAILURE)
        | Some tr =>
            let currentPosition := Ag.t_position tr in
            let dx := vx currentPosition - vx targetPosition in
            let dy := vy currentPosition - vy targetPosition in
            let dz := vz currentPosition - vz targetPosition in
            let distance := sqrt (dx * dx + dy * dy + dz * dz) in
            if Rleb fleeDistance distance then Ret (w, SUCCESS)
            else
              let dirX := dx / distance in
              let dirY := dy / distance in
              let dirZ := dz / distance in
              let fleeTarget := (vx currentPosition + dirX * fleeDistance,
                                 vy currentPosition + dirY * fleeDistance,
                                 vz currentPosition + dirZ * fleeDistance) in
              let a := match mesh w with
                       | Some g => Ag.setPath a [Some (Nav.getClosestPoint g fleeTarget)]
                       | None => Ag.setPath a [Some fleeTarget]
                       end in
              '(a, _) ← Ag.followPath a deltaTime;
              Ret (with_self w a, RUNNING)
        end
    end.

Definition createFleeFromBehavior (targetSelector : string -> World -> option Vec3)
    (fleeDistance : R) : BehaviorNode :=
  new_Action (flee_action targetSelector fleeDistance) None None.
End Factories.
End Sys.


(** * Notions used to state the properties *)

Global Instance Outcome_fmap : FMap Outcome := fun _ _ f o =>
  match o with
  | Ret a => Ret (f a)
  | TypeError => TypeError
  | OutOfFuel => OutOfFuel
  end.

Module BTSpec.
Import BT.

(** Induction on a node with the hypothesis for every child of a composite. *)
Section NodeInduction.
Variable P : BehaviorNode -> Prop.
Hypothesis HSequence : forall children ci, Forall P children -> P (Sequence children ci).
Hypothesis HSelector : forall children ci, Forall P children -> P (Selector children ci).
Hypothesis HInverter : forall child, P child -> P (Inverter child).
Hypothesis HCondition : forall c, P (Condition c).
Hypothesis HAction : forall f en ex t, P (Action f en ex t).
Hypothesis HParallel : forall children k t, Forall P children -> P (Parallel children k t).
Hypothesis HRepeat : forall child, P child -> P (RepeatUntilFailure child).
Hypothesis HWait : forall d t, P (Wait d t).

Fixpoint node_ind (n : BehaviorNode) : P n :=
  let all := fix all (l : list BehaviorNode) : Forall P l :=
    match l with
    | [] => @List.Forall_nil _ P
    | c :: l' => @List.Forall_cons _ P c l' (node_ind c) (all l')
    end in
  match n with
  | Sequence children ci => HSequence children ci (all children)
  | Selector children ci => HSelector children ci (all children)
  | Inverter child => HInverter child (node_ind child)
  | Condition c => HCondition c
  | Action f en ex t => HAction f en ex t
  | Parallel children k t => HParallel children k t (all children)
  | RepeatUntilFailure child => HRepeat child (node_ind child)
  | Wait d t => HWait d t
  end.
End NodeInduction.

(** What a tree holds for one agent: the tree with every per-agent table
    replaced by its entry for that agent. *)
#[warnings="-register-all"] Inductive View : Type :=
  | VSequence (children : list View) (index : option nat)
  | VSelector (children : list View) (index : option nat)
  | VInverter (child : View)
  | VCondition (condition : string -> World -> bool)
  | VAction (action : ActionFn) (onEnter onExit : option Hook) (running : option bool)
  | VParallel (children : list View) (requiredSuccesses : Z)
            (vector : option (list BehaviorStatus))
  | VRepeatUntilFailure (child : View)
  | VWait (duration : R) (elapsed : option R).

Fixpoint view (a : string) (n : BehaviorNode) : View :=
  match n with
  | Sequence children ci => VSequence (map (view a) children) (ci !! a)
  | Selector children ci => VSelector (map (view a) children) (ci !! a)
  | Inverter child => VInverter (view a child)
  | Condition c => VCondition c
  | Action f en ex t => VAction f en ex (t !! a)
  | Parallel children k t => VParallel (map (view a) children) k (t !! a)
  | RepeatUntilFailure child => VRepeatUntilFailure (view a child)
  | Wait d t => VWait d (t !! a)
  end.

(** The tree as its constructors leave it: no agent has an entry. *)
Fixpoint pristine (n : BehaviorNode) : BehaviorNode :=
  match n with
  | Sequence children _ => Sequence (map pristine children) ∅
  | Selector children _ => Selector (map pristine children) ∅
  | Inverter child => Inverter (pristine child)
  | Condition c => Condition c
  | Action f en ex _ => Action f en ex ∅
  | Parallel children k _ => Parallel (map pristine children) k ∅
  | RepeatUntilFailure child => RepeatUntilFailure (pristine child)
  | Wait d _ => Wait d ∅
  end.

(** No table of the tree has an entry for agent [a]. *)
Definition fresh (a : string) (n : BehaviorNode) : Prop :=
  view a n = view a (pristine n).

(** What agent [a] observes of a tick: its own view of the tree, the world
    and the status, or the error. *)
Definition observe (a : string) (o : Outcome (BehaviorNode * World * BehaviorStatus))
  : Outcome (View * World * BehaviorStatus) :=
  (fun r => (view a r.1.1, r.1.2, r.2)) <$> o.

(** The closures of the tree return (none of them raises or loops). *)
Definition returns_hook (h : option Hook) : Prop :=
  forall a w, exists w', run_hook h a w = Ret w'.

Fixpoint safe (n : BehaviorNode) : Prop :=
  match n with
  | Sequence children _ | Selector children _ | Parallel children _ _ =>
      fold_right (fun c acc => safe c /\ acc) True children
  | Inverter child | RepeatUntilFailure child => safe child
  | Condition _ | Wait _ _ => True
  | Action f en ex _ =>
      (forall a w dt, exists r, f a w dt = Ret r) /\ returns_hook en /\ returns_hook ex
  end.

(** The number of positions [i < n] at which the vector holds [s]. *)
Definition count_of (s : BehaviorStatus) (v : list BehaviorStatus) : nat :=
  length (filter (fun x => x = s) v).

(** What the specification says a [Sequence] of [count] children makes of the
    status of the child at [index]: its own status and the next index. *)
Definition Sequence_spec (count index : nat) (child : BehaviorStatus) : BehaviorStatus * nat :=
  match child with
  | RUNNING => (RUNNING, index)
  | FAILURE => (FAILURE, 0%nat)
  | SUCCESS => if (index + 1 =? count)%nat then (SUCCESS, 0%nat) else (RUNNING, (index + 1)%nat)
  end.

(** The relation between a child and what a tick for agent [a] makes of it. *)
Definition framed (a : string) (c c' : BehaviorNode) : Prop :=
  pristine c' = pristine c /\ forall b, b <> a -> view b c' = view b c.

Definition obs_children (a : string)
    : Outcome (list BehaviorNode * World * BehaviorStatus) -> _ :=
  fmap (fun r => (map (view a) r.1.1, r.1.2, r.2)).

Definition obs_parallel (a : string)
    : Outcome (list BehaviorNode * list BehaviorStatus * World * Counts) -> _ :=
  fmap (fun r => (map (view a) r.1.1.1, r.1.1.2, r.1.2, r.2)).

Definition obs_reset (a : string) : Outcome (BehaviorNode * World) -> _ :=
  fmap (fun r => (view a r.1, r.2)).

Definition obs_reset_each (a : string) : Outcome (list BehaviorNode * World) -> _ :=
  fmap (fun r => (map (view a) r.1, r.2)).

Definition safe_all (l : list BehaviorNode) : Prop :=
  fold_right (fun c acc => safe c /\ acc) True l.
End BTSpec.

Module NavSpec.
Import Nav.
Local Open Scope R_scope.

Definition closer_ok (p : Vec3) (acc : option NavMeshNode * Score) : Prop :=
  match fst acc with
  | Some n => snd acc = Fin (heuristic p (position n))
  | None => snd acc = Infinity
  end.

(** [n] is a registered node nearest to [p]. *)
Definition nearest (g : NavMesh) (p : Vec3) (n : NavMeshNode) : Prop :=
  In n (map snd (nodes g)) /\
  forall m, In m (map snd (nodes g)) ->
    heuristic p (position n) <= heuristic p (position m).

(** The node registered under [u] lists [v] with cost [c]. *)
Definition edge (g : NavMesh) (u v : Z) (c : R) : Prop :=
  exists n, omap_get (nodes g) u = Some n /\ (v, c) ∈ connections n.


(** Every connection leads to a registered node and costs the Euclidean
    distance between the two positions. *)
Definition euclidean (g : NavMesh) : Prop :=
  forall u nu v c,
    omap_get (nodes g) u = Some nu -> (v, c) ∈ connections nu ->
    exists nv, omap_get (nodes g) v = Some nv /\
               c = heuristic (position nu) (position nv).

(** [addNode] is the only writer of [nodes]: keys are distinct and each is
    the id of its node. *)
Definition well_keyed (g : NavMesh) : Prop :=
  NoDup (omap_keys (nodes g)) /\ forall k n, (k, n) ∈ nodes g -> id n = k.



(** The chain of [cameFrom] links from the start [s] to [n], through nodes
    expanded in the order of [closed], with the ids and the cost of the walk
    it describes. *)
Inductive via (g : NavMesh) (s : Z) (cf : gmap Z Z) : list Z -> Z -> list Z -> R -> Prop :=
  | via_root closed :
    cf !! s = None -> is_Some (omap_get (nodes g) s) -> via g s cf closed s [s] 0
  | via_step before p after n ids x c :
    cf !! n = Some p -> via g s cf before p ids x -> edge g p n c ->
    via g s cf (before ++ p :: after) n (ids ++ [n]) (x + c).

(** The graphs that world setup builds when it adds every id once. *)
Inductive built : NavMesh -> Prop :=
| built_empty : built empty
| built_addNode g i p : built g -> omap_get (nodes g) i = None -> built (addNode g i p)
| built_connectNodes g a b bidirectional :
    built g -> built (fst (connectNodes g a b bidirectional)).


End NavSpec.

Module AgSpec.
Import Ag.
Local Open Scope R_scope.


(** The cursor of an agent points into its path, or the path is empty. *)
Definition cursor_ok (a : Agent) : Prop :=
  (path a = [] /\ currentPathIndex a = 0%nat) \/
  (currentPathIndex a < length (path a))%nat.
End AgSpec.

(** Concrete values for the examples. *)
Module Demo.
Definition config : Ag.AgentConfig :=
  Ag.mkConfig 5 90 1 0.5 1 45 None None None None None None.

Definition object (p : Vec3) : Ag.GameObject :=
  Ag.mkGameObject "guard" (Some (Ag.mkTransform p None (1, 1, 1)%R)).

Definition agent : Ag.Agent := Ag.new_Agent (object (0, 0, 0)%R) config.

Definition world : World := mkWorld agent None (fun _ => 0%R).

Definition always (b : bool) : BT.BehaviorNode := BT.Condition (fun _ _ => b).

(** An action that is never done. *)
Definition busy : BT.BehaviorNode :=
  BT.Action (fun _ w _ => Ret (w, BT.RUNNING)) None None ∅.

(** A tree that two agents have been running. *)
Definition used_tree : BT.BehaviorNode :=
  BT.Sequence
    [BT.Wait 1 {[ "guard" := 0.4%R; "scout" := 0.7%R ]};
     BT.Action (fun _ w _ => Ret (w, BT.RUNNING)) None None {[ "guard" := false ]}]
    {[ "guard" := 0%nat; "scout" := 0%nat ]}.

Import Nav.
Local Open Scope R_scope.

Definition pA : Vec3 := (0, 0, 0).
Definition pB : Vec3 := (5, 0, 0).
Definition pC : Vec3 := (10, 0, 0).

(** Nodes A, B, C on a line, connected A-B and B-C. *)
Definition abc : NavMesh :=
  fst (connectNodes
         (fst (connectNodes (addNode (addNode (addNode empty 1 pA) 2 pB) 3 pC) 1 2 true))
         2 3 true).

Definition nodeA : NavMeshNode := mkNode 1 pA [(2%Z, heuristic pA pB)].
Definition nodeB : NavMeshNode :=
  mkNode 2 pB [(1%Z, heuristic pA pB); (3%Z, heuristic pB pC)].
Definition nodeC : NavMeshNode := mkNode 3 pC [(2%Z, heuristic pB pC)].
End Demo.

Module SysSpec.
Import BT Sys.
Local Open Scope R_scope.

(** Two agents that share the tree at address 0, a single [Wait]. *)
Definition shared_state : State :=
  mkState
    (mkSystem [("guard", Ag.setBehaviorTree Demo.agent 0);
               ("scout", Ag.setBehaviorTree Demo.agent 0)] None true)
    {[ 0%nat := mkTree (new_Wait 1) ]}
    (fun _ => 0).

(** Nothing of a chase is left on the agent. *)
Definition chase_torn_down (a : Ag.Agent) : Prop :=
  Ag.path a = [] /\ Ag.currentTarget a = None /\ Ag.blackboard a !! "chaseTimer" = None.

(** The [Action] node [n] is active for agent [a]. *)
Definition active (a : string) (n : BehaviorNode) : Prop :=
  exists f en ex t, n = Action f en ex t /\ t !! a = Some true.
End SysSpec.

(** * Notions used to state further properties of the code *)

Module NavMore.
Import Nav.

(** The positions of the registered nodes in the order of registration. *)
Definition positions (g : NavMesh) : list Vec3 := map (fun e => position (snd e)) (nodes g).
End NavMore.

Module BTMore.
Import BT.
Local Open Scope R_scope.

(** What a [Selector] of [count] children makes of the status of the child at
    [index]: its own status and the next index. *)
Definition Selector_spec (count index : nat) (child : BehaviorStatus) : BehaviorStatus * nat :=
  match child with
  | RUNNING => (RUNNING, index)
  | SUCCESS => (SUCCESS, 0%nat)
  | FAILURE => if (index + 1 =? count)%nat then (FAILURE, 0%nat) else (RUNNING, (index + 1)%nat)
  end.

Definition invert (s : BehaviorStatus) : BehaviorStatus :=
  match s with
  | RUNNING => RUNNING
  | SUCCESS => FAILURE
  | FAILURE => SUCCESS
  end.

(** Successive ticks of one node for one agent, one for each time step, with
    the statuses they return. *)
Fixpoint ticks (n : BehaviorNode) (agentId : string) (w : World) (steps : list R)
  : Outcome (BehaviorNode * World * list BehaviorStatus) :=
  match steps with
  | [] => Ret (n, w, [])
  | deltaTime :: rest =>
      '(n1, w1, status) ← execute n agentId w deltaTime;
      '(n2, w2, statuses) ← ticks n1 agentId w1 rest;
      Ret (n2, w2, status :: statuses)
  end.

End BTMore.

Module AgMore.
Local Open Scope R_scope.


End AgMore.
(** * Properties *)

(** ** Comparisons *)

Lemma Rltb_true (a b : R) : (a < b)%R -> Rltb a b = true.
Proof. intros H. unfold Rltb. destruct (Rlt_dec a b); [reflexivity | contradiction]. Qed.

Lemma Rltb_false (a b : R) : (b <= a)%R -> Rltb a b = false.
Proof. intros H. unfold Rltb. destruct (Rlt_dec a b); [lra | reflexivity]. Qed.

Lemma Rltb_spec (a b : R) : Rltb a b = true <-> (a < b)%R.
Proof.
  unfold Rltb. destruct (Rlt_dec a b); split; intros; try assumption; try reflexivity.
  - discriminate.
  - contradiction.
Qed.

Lemma Rleb_true (a b : R) : (a <= b)%R -> Rleb a b = true.
Proof. intros H. unfold Rleb. destruct (Rle_dec a b); [reflexivity | contradiction]. Qed.

Lemma Rleb_false (a b : R) : (b < a)%R -> Rleb a b = false.
Proof. intros H. unfold Rleb. destruct (Rle_dec a b); [lra | reflexivity]. Qed.

Lemma Rleb_spec (a b : R) : Rleb a b = true <-> (a <= b)%R.
Proof.
  unfold Rleb. destruct (Rle_dec a b); split; intros; try assumption; try reflexivity.
  - discriminate.
  - contradiction.
Qed.

Lemma sqrt_sq_pos (x : R) : (0 <= x)%R -> sqrt (x * x) = x.
Proof. apply sqrt_square. Qed.

(** ** Insertion-ordered maps *)

Section OMapFacts.
Context {K V : Type} `{EqDecision K}.
Implicit Types (m : omap K V) (k : K) (v : V).

Lemma omap_get_In m k v : omap_get m k = Some v -> In (k, v) m.
Proof.
  induction m as [|[k' v'] m IH]; simpl; [discriminate|].
  destruct (decide (k' = k)) as [->|Hne]; intros Hg.
  - inversion Hg; subst. now left.
  - right. now apply IH.
Qed.

Lemma omap_get_keys m k : is_Some (omap_get m k) <-> In k (omap_keys m).
Proof.
  induction m as [|[k' v'] m IH]; simpl.
  - split; [intros [? ?]; discriminate | tauto].
  - destruct (decide (k' = k)) as [->|Hne].
    + split; [now left | intros _; eauto].
    + rewrite IH. split; [now right | intros [?|?]; [contradiction | assumption]].
Qed.

Lemma omap_get_delete_eq m k : NoDup (omap_keys m) -> omap_get (omap_delete m k) k = None.
Proof.
  induction m as [|[k' v'] m IH]; simpl; intros Hnd; [reflexivity|].
  apply NoDup_cons in Hnd as [Hnotin Hnd].
  destruct (decide (k' = k)) as [->|Hne].
  - destruct (omap_get m k) eqn:E; [|reflexivity].
    exfalso. apply Hnotin. apply list_elem_of_In, omap_get_keys. rewrite E. eauto.
  - simpl. destruct (decide (k' = k)); [contradiction|]. now apply IH.
Qed.

Lemma omap_get_delete_ne m k k' : k <> k' -> omap_get (omap_delete m k) k' = omap_get m k'.
Proof.
  intros Hne. induction m as [|[k0 v0] m IH]; simpl; [reflexivity|].
  destruct (decide (k0 = k)) as [->|Hne0].
  - destruct (decide (k = k')); [contradiction | reflexivity].
  - simpl. destruct (decide (k0 = k')); [reflexivity | apply IH].
Qed.

Lemma omap_keys_delete_NoDup m k : NoDup (omap_keys m) -> NoDup (omap_keys (omap_delete m k)).
Proof.
  induction m as [|[k0 v0] m IH]; simpl; intros Hnd; [constructor|].
  apply NoDup_cons in Hnd as [Hnotin Hnd].
  destruct (decide (k0 = k)); [assumption|].
  simpl. apply NoDup_cons. split; [|now apply IH].
  intros Hin. apply Hnotin. apply list_elem_of_In.
  apply list_elem_of_In, omap_get_keys in Hin. apply omap_get_keys.
  destruct (decide (k = k0)) as [->|Hne]; [contradiction|].
  now rewrite omap_get_delete_ne in Hin.
Qed.

Lemma omap_get_set_eq m k v : omap_get (omap_set m k v) k = Some v.
Proof.
  induction m as [|[k0 v0] m IH]; simpl.
  - destruct (decide (k = k)); [reflexivity | contradiction].
  - destruct (decide (k0 = k)) as [->|Hne]; simpl.
    + destruct (decide (k = k)); [reflexivity | contradiction].
    + destruct (decide (k0 = k)); [contradiction | apply IH].
Qed.

Lemma omap_get_set_ne m k k' v : k <> k' -> omap_get (omap_set m k v) k' = omap_get m k'.
Proof.
  intros Hne. induction m as [|[k0 v0] m IH]; simpl.
  - destruct (decide (k = k')); [contradiction | reflexivity].
  - destruct (decide (k0 = k)) as [->|Hne0]; simpl.
    + destruct (decide (k = k')); [contradiction | reflexivity].
    + destruct (decide (k0 = k')); [reflexivity | apply IH].
Qed.

Lemma omap_keys_set m k v :
  omap_keys (omap_set m k v) =
  if bool_decide (k ∈ omap_keys m) then omap_keys m else omap_keys m ++ [k].
Proof.
  induction m as [|[k0 v0] m IH].
  - case_bool_decide as E; [|reflexivity]. now apply not_elem_of_nil in E.
  - cbn [omap_set]. destruct (decide (k0 = k)) as [->|Hne].
    + rewrite bool_decide_eq_true_2; [reflexivity | apply list_elem_of_here].
    + change (omap_keys ((k0, v0) :: omap_set m k v))
        with (k0 :: omap_keys (omap_set m k v)).
      change (omap_keys ((k0, v0) :: m)) with (k0 :: omap_keys m).
      rewrite IH. repeat case_bool_decide; try reflexivity.
      * exfalso. rewrite elem_of_cons in *. tauto.
      * exfalso. rewrite elem_of_cons in *. intuition congruence.
Qed.
End OMapFacts.

(** ** The navigation graph *)

Module NavFacts.
Import Nav NavSpec.
Local Open Scope R_scope.





(** *** The nearest node *)

Lemma closer_step p acc x :
  closer_ok p acc ->
  closer_ok p (closer p acc x) /\
  exists n, fst (closer p acc x) = Some n /\
            (n = x \/ fst acc = Some n) /\
            heuristic p (position n) <= heuristic p (position x) /\
            (forall m, fst acc = Some m -> heuristic p (position n) <= heuristic p (position m)).
Proof.
  unfold closer_ok, closer. destruct acc as [[n0|] d0]; cbn [fst snd]; intros ->; cbn [score_lt].
  - destruct (Rltb _ _) eqn:Elt; cbn [fst snd].
    + apply Rltb_spec in Elt. split; [reflexivity|]. exists x. split_and!; auto; try lra.
      intros m Hm. inversion Hm; subst. lra.
    + assert (heuristic p (position n0) <= heuristic p (position x)).
      { destruct (Rle_dec (heuristic p (position n0)) (heuristic p (position x)));
          [assumption|]. rewrite Rltb_true in Elt by lra. discriminate. }
      split; [reflexivity|]. exists n0. split_and!; auto.
      intros m Hm. inversion Hm; subst. lra.
  - split; [reflexivity|]. exists x. split_and!; auto; try lra. intros m Hm. discriminate.
Qed.

Lemma closer_fold p l :
  forall acc,
    closer_ok p acc ->
    match fst (fold_left (closer p) l acc) with
    | Some n =>
        (fst acc = Some n \/ In n l) /\
        (forall m, In m l -> heuristic p (position n) <= heuristic p (position m)) /\
        (forall m, fst acc = Some m -> heuristic p (position n) <= heuristic p (position m))
    | None => fst acc = None /\ l = []
    end.
Proof.
  induction l as [|x l IH]; intros acc Hacc; cbn [fold_left].
  - destruct (fst acc) as [n|] eqn:E; [|auto].
    split_and!; auto.
    + intros m [].
    + intros m Hm. inversion Hm; subst. lra.
  - destruct (closer_step p acc x Hacc) as (Hok & n1 & E1 & Hfrom & Hx & Hacc1).
    specialize (IH _ Hok). destruct (fst (fold_left _ l _)) as [n|].
    + destruct IH as (H2 & H3 & H4). rewrite E1 in H2, H4.
      specialize (H4 n1 eq_refl). split_and!.
      * destruct H2 as [H2|H2]; [|right; now right].
        inversion H2; subst. destruct Hfrom as [->|Hfrom]; [right; now left | now left].
      * intros m [<-|Hm]; [lra | now apply H3].
      * intros m Hm. specialize (Hacc1 m Hm). lra.
    + destruct IH as [IH _]. rewrite E1 in IH. discriminate IH.
Qed.

Lemma getClosestNode_spec g p :
  match getClosestNode g p with
  | Some n => nearest g p n
  | None => nodes g = []
  end.
Proof.
  unfold getClosestNode.
  pose proof (closer_fold p (map snd (nodes g)) (None, Infinity) eq_refl) as H.
  destruct (fst (fold_left _ _ _)) as [n|].
  - destruct H as ([H|H] & Hmin & _); [discriminate|]. split; assumption.
  - destruct H as [_ H]. now apply map_eq_nil in H.
Qed.

Section Walks.
Variable g : NavMesh.
Variable s : Z.
Hypothesis Heuclid : euclidean g.







Lemma via_last cf closed n ids x :
  via g s cf closed n ids x -> exists pre, ids = pre ++ [n].
Proof. induction 1; [exists []; reflexivity | eauto]. Qed.


End Walks.

(** *** Scores *)







Section Search.
Variable g : NavMesh.
Variable s : Z.
Variable t : NavMeshNode.
Hypothesis Heuclid : euclidean g.



End Search.

Section Relax.
Variable g : NavMesh.
Variable s : Z.
Variable t : NavMeshNode.
Hypothesis Heuclid : euclidean g.




End Relax.


Lemma omap_get_elem {V} (m : omap Z V) k v :
  NoDup (omap_keys m) -> (k, v) ∈ m -> omap_get m k = Some v.
Proof.
  induction m as [|[k0 v0] m IH]; intros Hnd Hin; [now apply not_elem_of_nil in Hin|].
  cbn in Hnd. apply NoDup_cons in Hnd as [Hk0 Hnd]. cbn [omap_get].
  apply elem_of_cons in Hin as [Heq|Hin].
  - inversion Heq; subst. now rewrite decide_True.
  - destruct (decide (k0 = k)) as [->|Hne]; [|now apply IH].
    exfalso. apply Hk0. apply list_elem_of_fmap. exists (k, v). auto.
Qed.

Section Loop.
Variable g : NavMesh.
Variable s : Z.
Variable t : NavMeshNode.
Hypothesis Heuclid : euclidean g.




End Loop.

Lemma nearest_registered g p n :
  well_keyed g -> nearest g p n -> omap_get (nodes g) (id n) = Some n.
Proof.
  intros [Hnd Hkey] [Hin _]. apply list_elem_of_In, list_elem_of_fmap in Hin as ([k n'] & -> & Hin).
  cbn. rewrite (Hkey _ _ Hin). now apply omap_get_elem.
Qed.



Lemma heuristic_sym (a b : Vec3) : heuristic a b = heuristic b a.
Proof. unfold heuristic. f_equal. ring. Qed.

Lemma omap_set_elem {V} (m : omap Z V) (i k : Z) (v x : V) :
  (k, x) ∈ omap_set m i v -> (k = i /\ x = v) \/ (k, x) ∈ m.
Proof.
  induction m as [|[k0 v0] m IH]; cbn [omap_set].
  - intros H. apply list_elem_of_singleton in H. inversion H; auto.
  - destruct (decide (k0 = i)) as [->|Hne]; rewrite !elem_of_cons.
    + intros [H|H]; [inversion H; auto | auto].
    + intros [H|H]; [auto | destruct (IH H); auto].
Qed.

Lemma omap_keys_set_NoDup {V} (m : omap Z V) (i : Z) (v : V) :
  NoDup (omap_keys m) -> NoDup (omap_keys (omap_set m i v)).
Proof.
  intros Hnd. rewrite omap_keys_set. case_bool_decide as Hin; [assumption|].
  apply NoDup_app. split_and!; [assumption | | apply NoDup_singleton].
  intros x Hx Hx'. apply list_elem_of_singleton in Hx' as ->. contradiction.
Qed.

Lemma well_keyed_set g i n vs tris :
  well_keyed g -> id n = i -> well_keyed (mkMesh vs tris (omap_set (nodes g) i n)).
Proof.
  intros [Hnd Hkey] Hid. split; cbn [nodes].
  - now apply omap_keys_set_NoDup.
  - intros k x Hin. apply omap_set_elem in Hin as [[-> ->]|Hin]; auto.
Qed.

Lemma well_keyed_get g i n : well_keyed g -> omap_get (nodes g) i = Some n -> id n = i.
Proof. intros [_ Hkey] Hget. apply Hkey, list_elem_of_In, omap_get_In, Hget. Qed.

Lemma built_well_keyed g : built g -> well_keyed g.
Proof.
  induction 1 as [|g i p _ IH Hnew|g a b bi _ IH].
  - split; [constructor | intros k n Hin; now apply not_elem_of_nil in Hin].
  - now apply well_keyed_set.
  - unfold connectNodes.
    destruct (omap_get (nodes g) a) as [na|] eqn:Ha; [|assumption].
    destruct (omap_get (nodes g) b) as [nb|] eqn:Hb; [|assumption].
    cbn [fst].
    assert (W1 : well_keyed (mkMesh (vertices g) (indices g)
                  (omap_set (nodes g) a
                     (addConnection na b (heuristic (position na) (position nb)))))).
    { apply well_keyed_set; [assumption|]. cbn. eapply well_keyed_get; eauto. }
    destruct bi; [|exact W1].
    destruct (omap_get (omap_set _ _ _) b) as [nb'|] eqn:Hb'; [|exact W1].
    apply (well_keyed_set _ _ _ (vertices g) (indices g) W1). cbn.
    eapply (well_keyed_get _ _ _ W1). exact Hb'.
Qed.

(** Adding a connection to a registered node at its true cost keeps the costs
    Euclidean. *)
Lemma euclidean_connect g vs tris a na b nb :
  euclidean g ->
  omap_get (nodes g) a = Some na -> omap_get (nodes g) b = Some nb ->
  euclidean (mkMesh vs tris (omap_set (nodes g) a
                          (addConnection na b (heuristic (position na) (position nb))))).
Proof.
  intros Heuclid Ha Hb u nu v c Hu Hin. cbn [nodes] in *.
  assert (Hpos : forall k n, omap_get (nodes g) k = Some n ->
            exists n', omap_get (omap_set (nodes g) a
                          (addConnection na b (heuristic (position na) (position nb)))) k
                       = Some n' /\ position n' = position n).
  { intros k n Hk. destruct (decide (a = k)) as [<-|Hne].
    - rewrite omap_get_set_eq. eexists. split; [reflexivity|].
      rewrite Ha in Hk. now inversion Hk.
    - rewrite omap_get_set_ne by assumption. eauto. }
  destruct (decide (a = u)) as [<-|Hne].
  - rewrite omap_get_set_eq in Hu. inversion Hu; subst. cbn [connections addConnection] in Hin.
    apply omap_set_elem in Hin as [[-> ->]|Hin].
    + destruct (Hpos _ _ Hb) as (n' & Hn' & Hp). exists n'. split; [assumption|].
      cbn. now rewrite Hp.
    + destruct (Heuclid _ _ _ _ Ha Hin) as (nv & Hv & ->).
      destruct (Hpos _ _ Hv) as (n' & Hn' & Hp). exists n'. split; [assumption|].
      cbn. now rewrite Hp.
  - rewrite omap_get_set_ne in Hu by assumption.
    destruct (Heuclid _ _ _ _ Hu Hin) as (nv & Hv & ->).
    destruct (Hpos _ _ Hv) as (n' & Hn' & Hp). exists n'. split; [assumption|].
    now rewrite Hp.
Qed.

Lemma built_euclidean g : built g -> euclidean g.
Proof.
  induction 1 as [|g i p _ IH Hnew|g a b bi _ IH].
  - intros u nu v c Hu. discriminate.
  - intros u nu v c Hu Hin. cbn [addNode nodes] in *.
    destruct (decide (i = u)) as [<-|Hne].
    + rewrite omap_get_set_eq in Hu. inversion Hu; subst. cbn in Hin.
      now apply not_elem_of_nil in Hin.
    + rewrite omap_get_set_ne in Hu by assumption.
      destruct (IH _ _ _ _ Hu Hin) as (nv & Hv & ->). exists nv. split; [|reflexivity].
      rewrite omap_get_set_ne; [assumption|]. intros <-. congruence.
  - unfold connectNodes.
    destruct (omap_get (nodes g) a) as [na|] eqn:Ha; [|assumption].
    destruct (omap_get (nodes g) b) as [nb|] eqn:Hb; [|assumption].
    cbn [fst].
    pose proof (euclidean_connect g (vertices g) (indices g) a na b nb IH Ha Hb) as E1.
    destruct bi; [|exact E1].
    set (g1 := mkMesh (vertices g) (indices g) _) in E1.
    change (omap_set (nodes g) a _) with (nodes g1).
    destruct (omap_get (nodes g1) b) as [nb'|] eqn:Hb'; [|exact E1].
    assert (Ha' : exists na', omap_get (nodes g1) a = Some na' /\ position na' = position na).
    { unfold g1. cbn [nodes]. rewrite omap_get_set_eq. eauto. }
    destruct Ha' as (na' & Ha' & Hpa).
    assert (Hpb : position nb' = position nb).
    { unfold g1 in Hb'. cbn [nodes] in Hb'. destruct (decide (a = b)) as [<-|Hne].
      - rewrite omap_get_set_eq in Hb'. inversion Hb'; subst. cbn.
        rewrite Ha in Hb. now inversion Hb.
      - rewrite omap_get_set_ne in Hb' by assumption. rewrite Hb in Hb'. now inversion Hb'. }
    pose proof (euclidean_connect g1 (vertices g) (indices g) b nb' a na' E1 Hb' Ha') as E2.
    rewrite Hpa, Hpb in E2. rewrite (heuristic_sym (position na) (position nb)).
    exact E2.
Qed.
End NavFacts.

(** ** Behaviour trees *)

Module BTFacts.
Import BT BTSpec.

Lemma init_lookup {V} (t : gmap string V) (a : string) (v0 : V) :
  (if bool_decide (is_Some (t !! a)) then t else <[a := v0]> t) !! a
  = Some (default v0 (t !! a)).
Proof.
  case_bool_decide as E.
  - destruct E as [x Hx]. now rewrite Hx.
  - rewrite lookup_insert_eq. destruct (t !! a) eqn:E'; [exfalso; eauto | reflexivity].
Qed.

Lemma init_lookup_ne {V} (t : gmap string V) (a b : string) (v0 : V) :
  a <> b ->
  (if bool_decide (is_Some (t !! a)) then t else <[a := v0]> t) !! b = t !! b.
Proof. intros. case_bool_decide; [reflexivity | now rewrite lookup_insert_ne]. Qed.

Lemma execute_at_lookup (ex : Tick) children i w c :
  children !! i = Some c ->
  execute_at ex children i w =
  r ← ex c w; Ret (<[i := r.1.1]> children, r.1.2, r.2).
Proof.
  revert i. induction children as [|c0 rest IH]; intros i Hi; [discriminate|].
  destruct i as [|i]; simpl in *.
  - inversion Hi; subst. destruct (ex c w) as [[[c' w'] s]| |]; reflexivity.
  - rewrite (IH _ Hi). destruct (ex c w) as [[[c' w'] s]| |]; reflexivity.
Qed.


Lemma count_of_cons s x v :
  count_of s (x :: v) = ((if decide (x = s) then 1 else 0) + count_of s v)%nat.
Proof.
  unfold count_of. rewrite filter_cons. destruct (decide (x = s)); reflexivity.
Qed.

Lemma count_of_total v :
  (count_of RUNNING v + count_of SUCCESS v + count_of FAILURE v = length v)%nat.
Proof.
  induction v as [|x v IH]; [reflexivity|].
  rewrite !count_of_cons. cbn [length].
  destruct x; repeat case_decide; try congruence; lia.
Qed.

Lemma count_status_spec (x : BehaviorStatus) c :
  runningCount (count_status (Some x) c)
    = ((if decide (x = RUNNING) then 1 else 0) + runningCount c)%nat /\
  successCount (count_status (Some x) c)
    = ((if decide (x = SUCCESS) then 1 else 0) + successCount c)%nat /\
  failureCount (count_status (Some x) c)
    = ((if decide (x = FAILURE) then 1 else 0) + failureCount c)%nat.
Proof. destruct x; cbn; repeat case_decide; try congruence; auto. Qed.

Section ParallelEach.
Variable ex : Tick.

Lemma parallel_each_spec children :
  forall index vec w c children' vec' w' c',
    parallel_each ex children index vec w c = Ret (children', vec', w', c') ->
    (index + length children <= length vec)%nat ->
    length children' = length children /\
    length vec' = length vec /\
    (forall j, (j < index)%nat -> vec' !! j = vec !! j) /\
    (forall i child, children !! i = Some child ->
       (vec !! (index + i)%nat <> Some RUNNING ->
          children' !! i = Some child /\ vec' !! (index + i)%nat = vec !! (index + i)%nat) /\
       (vec !! (index + i)%nat = Some RUNNING ->
          exists wi child' wi' s,
            ex child wi = Ret (child', wi', s) /\
            children' !! i = Some child' /\ vec' !! (index + i)%nat = Some s)) /\
    let seen := take (length children) (drop index vec') in
    runningCount c' = (runningCount c + count_of RUNNING seen)%nat /\
    successCount c' = (successCount c + count_of SUCCESS seen)%nat /\
    failureCount c' = (failureCount c + count_of FAILURE seen)%nat.
Proof.
  induction children as [|child rest IH]; intros index vec w c children' vec' w' c' Hrun Hlen.
  - cbn in Hrun. inversion Hrun; subst. cbn. repeat split; auto; try lia.
    all: intros; discriminate.
  - cbn [parallel_each] in Hrun. cbn [length] in Hlen.
    destruct (decide (vec !! index = Some RUNNING)) as [Hr|Hnr].
    + destruct (ex child w) as [[[ch1 w1] s]| |] eqn:Hex; try discriminate.
      cbn in Hrun.
      destruct (parallel_each ex rest (S index) (<[index:=s]> vec) w1 _)
        as [[[[rest' vec2] w2] c2]| |] eqn:Hrest; try discriminate.
      cbn in Hrun. inversion Hrun; subst; clear Hrun.
      apply IH in Hrest as (Hl1 & Hl2 & Hbefore & Hat & Hcount);
        [|rewrite length_insert; lia].
      rewrite length_insert in Hl2.
      assert (Hidx : vec' !! index = Some s).
      { rewrite Hbefore by lia. apply list_lookup_insert_eq. lia. }
      split; [cbn; lia|]. split; [assumption|]. split.
      { intros j Hj. rewrite Hbefore by lia. apply list_lookup_insert_ne. lia. }
      split.
      { intros [|i] ch Hi.
        - cbn in Hi. inversion Hi; subst. rewrite Nat.add_0_r. split; [contradiction|].
          intros _. exists w, ch1, w1, s. auto.
        - cbn in Hi. specialize (Hat i ch Hi).
          replace (index + S i)%nat with (S index + i)%nat by lia.
          rewrite list_lookup_insert_ne in Hat by lia. exact Hat. }
      cbn [length]. rewrite (drop_S _ _ _ Hidx). cbn [take]. rewrite !count_of_cons.
      cbn zeta in Hcount. destruct Hcount as (H1 & H2 & H3).
      rewrite list_lookup_insert_eq in H1, H2, H3 by lia.
      destruct (count_status_spec s c) as (E1 & E2 & E3).
      rewrite E1 in H1. rewrite E2 in H2. rewrite E3 in H3.
      cbn zeta. lia.
    + cbn in Hrun.
      destruct (parallel_each ex rest (S index) vec w _)
        as [[[[rest' vec2] w2] c2]| |] eqn:Hrest; try discriminate.
      cbn in Hrun. inversion Hrun; subst; clear Hrun.
      apply IH in Hrest as (Hl1 & Hl2 & Hbefore & Hat & Hcount); [|lia].
      destruct (lookup_lt_is_Some_2 vec index ltac:(lia)) as [x Hx].
      assert (Hidx : vec' !! index = Some x) by (rewrite Hbefore by lia; exact Hx).
      split; [cbn; lia|]. split; [assumption|]. split.
      { intros j Hj. apply Hbefore. lia. }
      split.
      { intros [|i] ch Hi.
        - cbn in Hi. inversion Hi; subst. rewrite Nat.add_0_r. split; [|contradiction].
          intros _. split; [reflexivity|]. apply Hbefore. lia.
        - cbn in Hi. specialize (Hat i ch Hi).
          replace (index + S i)%nat with (S index + i)%nat by lia. exact Hat. }
      cbn [length]. rewrite (drop_S _ _ _ Hidx). cbn [take]. rewrite !count_of_cons.
      cbn zeta in Hcount. destruct Hcount as (H1 & H2 & H3).
      rewrite Hx in H1, H2, H3.
      destruct (count_status_spec x c) as (E1 & E2 & E3).
      rewrite E1 in H1. rewrite E2 in H2. rewrite E3 in H3.
      cbn zeta. lia.
Qed.
End ParallelEach.

Lemma bind_Ret {A B} (o : Outcome A) (k : A -> Outcome B) (b : B) :
  o ≫= k = Ret b -> exists x, o = Ret x /\ k x = Ret b.
Proof. destruct o; cbn; intros H; try discriminate. eauto. Qed.

Section ResetEach.
Variable rs : BehaviorNode -> World -> Outcome (BehaviorNode * World).
Variable Q : BehaviorNode -> BehaviorNode -> Prop.

Lemma reset_each_Forall2 children :
  Forall (fun c => forall w c' w', rs c w = Ret (c', w') -> Q c c') children ->
  forall w children' w',
    reset_each rs children w = Ret (children', w') -> Forall2 Q children children'.
Proof.
  induction 1 as [|c rest Hc _ IH]; intros w children' w' Hrun; cbn in Hrun.
  - inversion Hrun. constructor.
  - apply bind_Ret in Hrun as ([c1 w1] & E1 & Hrun). cbn in Hrun.
    apply bind_Ret in Hrun as ([rest1 w2] & E2 & Hrun). cbn in Hrun.
    inversion Hrun; subst. constructor; eauto.
Qed.
End ResetEach.

Lemma Forall2_map_eq {A B} (f g : A -> B) (l1 l2 : list A) :
  Forall2 (fun x y => f y = g x) l1 l2 -> map f l2 = map g l1.
Proof. induction 1; cbn; congruence. Qed.

(** [reset] erases the entries of the agent and nothing else. *)
Lemma reset_view n :
  forall a w n' w',
    reset n a w = Ret (n', w') ->
    view a n' = view a (pristine n) /\
    pristine n' = pristine n /\
    forall b, b <> a -> view b n' = view b n.
Proof.
  induction n using node_ind; intros a w n' w' Hrun; cbn [reset] in Hrun.
  1, 2, 6:
    apply bind_Ret in Hrun as ([children' w1] & Heach & Hrun); cbn in Hrun;
    inversion Hrun; subst; clear Hrun;
    eapply reset_each_Forall2 in Heach;
      [|eapply Forall_impl; [exact H|]; intros c Hc w0 c' w0' Hr;
        exact (Hc a w0 c' w0' Hr)];
    cbn [view pristine]; rewrite lookup_delete_eq, lookup_empty; split_and!.
  1, 4, 7: f_equal; rewrite map_map; apply Forall2_map_eq;
    eapply Forall2_impl; [exact Heach|]; cbn; intros ? ? (? & ? & ?); assumption.
  1, 3, 5: f_equal; apply Forall2_map_eq;
    eapply Forall2_impl; [exact Heach|]; cbn; intros ? ? (? & ? & ?); assumption.
  1, 2, 3: intros b Hb; rewrite lookup_delete_ne by congruence; f_equal;
    apply Forall2_map_eq; eapply Forall2_impl; [exact Heach|]; cbn;
    intros ? ? (? & ? & Ho); now apply Ho.
  - apply bind_Ret in Hrun as ([c1 w1] & E & Hrun). cbn in Hrun. inversion Hrun; subst.
    destruct (IHn _ _ _ _ E) as (H1 & H2 & H3). cbn. split_and!; try congruence.
    intros b Hb. f_equal. now apply H3.
  - inversion Hrun; subst. cbn. auto.
  - apply bind_Ret in Hrun as (w1 & E & Hrun). inversion Hrun; subst.
    cbn. rewrite lookup_delete_eq, lookup_empty. split_and!; try reflexivity.
    intros b Hb. now rewrite lookup_delete_ne by congruence.
  - apply bind_Ret in Hrun as ([c1 w1] & E & Hrun). cbn in Hrun. inversion Hrun; subst.
    destruct (IHn _ _ _ _ E) as (H1 & H2 & H3). cbn. split_and!; try congruence.
    intros b Hb. f_equal. now apply H3.
  - inversion Hrun; subst. cbn. rewrite lookup_delete_eq, lookup_empty.
    split_and!; try reflexivity.
    intros b Hb. now rewrite lookup_delete_ne by congruence.
Qed.

Lemma execute_at_Ret (ex : Tick) children i w children' w' s :
  execute_at ex children i w = Ret (children', w', s) ->
  exists c c', children !! i = Some c /\ ex c w = Ret (c', w', s) /\
               children' = <[i := c']> children.
Proof.
  revert i children'. induction children as [|c0 rest IH]; intros i children' Hrun;
    [discriminate|].
  destruct i as [|i]; cbn in Hrun.
  - apply bind_Ret in Hrun as ([[c1 w1] s1] & E & Hrun). cbn in Hrun.
    inversion Hrun; subst. exists c0, c1. auto.
  - apply bind_Ret in Hrun as ([[r1 w1] s1] & E & Hrun). cbn in Hrun.
    inversion Hrun; subst. destruct (IH _ _ E) as (c & c' & H1 & H2 & H3).
    exists c, c'. subst. auto.
Qed.

Section ParallelEachRel.
Variable ex : Tick.
Variable Q : BehaviorNode -> BehaviorNode -> Prop.
Hypothesis Q_refl : forall c, Q c c.

Lemma parallel_each_Forall2 children :
  Forall (fun c => forall w c' w' s, ex c w = Ret (c', w', s) -> Q c c') children ->
  forall index vec w c children' vec' w' c',
    parallel_each ex children index vec w c = Ret (children', vec', w', c') ->
    Forall2 Q children children'.
Proof.
  induction 1 as [|child rest Hc _ IH]; intros index vec w c children' vec' w' c' Hrun;
    cbn [parallel_each] in Hrun.
  - inversion Hrun. constructor.
  - apply bind_Ret in Hrun as ([[ch1 vec1] w1] & Hfirst & Hrun). cbn in Hrun.
    apply bind_Ret in Hrun as ([[[rest1 vec2] w2] c2] & Hrest & Hrun). cbn in Hrun.
    inversion Hrun; subst; clear Hrun. constructor; [|eauto].
    destruct (decide (vec !! index = Some RUNNING)).
    + apply bind_Ret in Hfirst as ([[ch2 w3] s] & E & Hfirst). cbn in Hfirst.
      inversion Hfirst; subst. eauto.
    + inversion Hfirst; subst. apply Q_refl.
Qed.
End ParallelEachRel.

Lemma Forall2_insert_rel {A} (Q : A -> A -> Prop) (l : list A) i x y :
  (forall z, Q z z) -> l !! i = Some x -> Q x y -> Forall2 Q l (<[i := y]> l).
Proof.
  intros Hrefl. revert i. induction l as [|z l IH]; intros i Hi Hq; [discriminate|].
  destruct i as [|i]; cbn in *.
  - inversion Hi; subst. constructor; [assumption|]. apply Forall_Forall2_diag.
    apply Forall_forall. intros; apply Hrefl.
  - constructor; [apply Hrefl | now apply IH].
Qed.

Ltac solve_ne := solve [assumption | apply not_eq_sym; assumption].

Lemma framed_refl a c : framed a c c.
Proof. split; auto. Qed.

Lemma framed_children a l l' :
  Forall2 (framed a) l l' ->
  map pristine l' = map pristine l /\ forall b, b <> a -> map (view b) l' = map (view b) l.
Proof.
  intros HF. split.
  - apply Forall2_map_eq. eapply Forall2_impl; [exact HF|]. now intros ? ? [? ?].
  - intros b Hb. apply Forall2_map_eq. eapply Forall2_impl; [exact HF|].
    intros ? ? [? Ho]. now apply Ho.
Qed.

(** A tick for agent [a] keeps the shape of the tree and the entries of every
    other agent. *)
Lemma execute_frame n :
  forall a w dt n' w' s, execute n a w dt = Ret (n', w', s) -> framed a n n'.
Proof.
  induction n using node_ind; intros a w dt n' w' s Hrun; cbn [execute] in Hrun;
    rewrite ?init_lookup in Hrun;
    try change (default 0%nat (Some ?x)) with x in Hrun.
  - (* Sequence *)
    destruct (_ <=? _)%nat.
    + inversion Hrun; subst. split; [reflexivity|].
      intros b Hb. cbn. f_equal. now apply init_lookup_ne.
    + apply bind_Ret in Hrun as ([[children' w1] s1] & Hat & Hrun). cbn in Hrun.
      apply execute_at_Ret in Hat as (c & c' & Hc & Hex & ->).
      assert (HF : Forall2 (framed a) children
                     (<[default 0%nat (ci !! a) := c']> children)).
      { eapply Forall2_insert_rel; [apply framed_refl | exact Hc |].
        eapply Forall_lookup_1 in H; [|exact Hc]. eapply H. exact Hex. }
      apply framed_children in HF as [HP HV].
      destruct s1; [destruct (_ <=? _)%nat|..]; inversion Hrun; subst; clear Hrun;
        (split; [cbn; now rewrite HP|]); intros b Hb; cbn;
        rewrite ?lookup_insert_ne by solve_ne; rewrite init_lookup_ne by solve_ne;
        now rewrite HV.
  - (* Selector *)
    destruct (_ <=? _)%nat.
    + inversion Hrun; subst. split; [reflexivity|].
      intros b Hb. cbn. f_equal. now apply init_lookup_ne.
    + apply bind_Ret in Hrun as ([[children' w1] s1] & Hat & Hrun). cbn in Hrun.
      apply execute_at_Ret in Hat as (c & c' & Hc & Hex & ->).
      assert (HF : Forall2 (framed a) children
                     (<[default 0%nat (ci !! a) := c']> children)).
      { eapply Forall2_insert_rel; [apply framed_refl | exact Hc |].
        eapply Forall_lookup_1 in H; [|exact Hc]. eapply H. exact Hex. }
      apply framed_children in HF as [HP HV].
      destruct s1; [| destruct (_ <=? _)%nat|]; inversion Hrun; subst; clear Hrun;
        (split; [cbn; now rewrite HP|]); intros b Hb; cbn;
        rewrite ?lookup_insert_ne by solve_ne; rewrite init_lookup_ne by solve_ne;
        now rewrite HV.
  - (* Inverter *)
    apply bind_Ret in Hrun as ([[c1 w1] s1] & E & Hrun). cbn in Hrun.
    inversion Hrun; subst. destruct (IHn _ _ _ _ _ _ E) as [HP HV].
    split; [cbn; congruence|]. intros b Hb. cbn. f_equal. now apply HV.
  - inversion Hrun; subst. apply framed_refl.
  - (* Action *)
    apply bind_Ret in Hrun as (w1 & E1 & Hrun).
    apply bind_Ret in Hrun as ([w2 s2] & E2 & Hrun). cbn in Hrun.
    destruct (decide (s2 = RUNNING)).
    + inversion Hrun; subst. split; [reflexivity|].
      intros b Hb. cbn. now rewrite lookup_insert_ne by solve_ne.
    + apply bind_Ret in Hrun as (w3 & E3 & Hrun). inversion Hrun; subst.
      split; [reflexivity|].
      intros b Hb. cbn. now rewrite !lookup_insert_ne by solve_ne.
  - (* Parallel *)
    apply bind_Ret in Hrun as ([[[children' vec'] w1] c1] & Hpar & Hrun). cbn in Hrun.
    eapply (parallel_each_Forall2 _ (framed a) (framed_refl a)) in Hpar;
      [|eapply Forall_impl; [exact H|]; intros c Hc w0 c' w0' s0 Hr;
        exact (Hc a w0 dt c' w0' s0 Hr)].
    apply framed_children in Hpar as [HP HV].
    destruct (_ <=? _)%Z; [|destruct (_ <? _)%Z]; inversion Hrun; subst; clear Hrun;
      (split; [cbn; now rewrite HP|]); intros b Hb; cbn;
      rewrite ?lookup_delete_ne by solve_ne;
      rewrite lookup_insert_ne by solve_ne; rewrite init_lookup_ne by solve_ne;
      now rewrite HV.
  - (* RepeatUntilFailure *)
    apply bind_Ret in Hrun as ([[c1 w1] s1] & E & Hrun). cbn in Hrun.
    destruct (IHn _ _ _ _ _ _ E) as [HP HV].
    destruct s1.
    + apply bind_Ret in Hrun as ([c2 w2] & Er & Hrun). cbn in Hrun. inversion Hrun; subst.
      apply reset_view in Er as (_ & HP2 & HV2).
      split; [cbn; congruence|]. intros b Hb. cbn. f_equal.
      rewrite HV2 by assumption. now apply HV.
    + inversion Hrun; subst. split; [cbn; congruence|].
      intros b Hb. cbn. f_equal. now apply HV.
    + inversion Hrun; subst. split; [cbn; congruence|].
      intros b Hb. cbn. f_equal. now apply HV.
  - (* Wait *)
    destruct (Rleb _ _); inversion Hrun; subst; (split; [reflexivity|]);
      intros b Hb; cbn; rewrite ?lookup_delete_ne by solve_ne;
      rewrite lookup_insert_ne by solve_ne; now rewrite init_lookup_ne by solve_ne.
Qed.

Lemma obs_bind {A B C D} (f : A -> C) (g : B -> D) (o1 o2 : Outcome A)
    (k1 k2 : A -> Outcome B) :
  f <$> o1 = f <$> o2 ->
  (forall x y, f x = f y -> g <$> k1 x = g <$> k2 y) ->
  g <$> (o1 ≫= k1) = g <$> (o2 ≫= k2).
Proof.
  intros Ho Hk. destruct o1, o2; cbn in *; try discriminate; try reflexivity.
  apply Hk. congruence.
Qed.

Section Children.
Variable a : string.

Lemma reset_each_obs (rs : BehaviorNode -> World -> Outcome (BehaviorNode * World)) l1 :
  Forall (fun c1 => forall c2 w, view a c1 = view a c2 ->
                      obs_reset a (rs c1 w) = obs_reset a (rs c2 w)) l1 ->
  forall l2 w, map (view a) l1 = map (view a) l2 ->
    obs_reset_each a (reset_each rs l1 w) = obs_reset_each a (reset_each rs l2 w).
Proof.
  induction 1 as [|c1 l1 Hc _ IH]; intros [|c2 l2] w Hmap; try discriminate;
    [reflexivity|].
  cbn in Hmap. injection Hmap as Hhd Htl. cbn [reset_each].
  eapply obs_bind; [exact (Hc c2 w Hhd)|].
  intros [x1 w1] [x2 w2] E. cbn in E. injection E as E1 E2. subst w2.
  eapply obs_bind; [exact (IH l2 w1 Htl)|].
  intros [y1 v1] [y2 v2] E. cbn in E. injection E as E3 E4. subst v2.
  cbn. now rewrite E1, E3.
Qed.

Variable ex : Tick.

Lemma execute_at_obs l1 :
  Forall (fun c1 => forall c2 w, view a c1 = view a c2 ->
                      observe a (ex c1 w) = observe a (ex c2 w)) l1 ->
  forall l2 i w, map (view a) l1 = map (view a) l2 ->
    obs_children a (execute_at ex l1 i w) = obs_children a (execute_at ex l2 i w).
Proof.
  induction 1 as [|c1 l1 Hc _ IH]; intros [|c2 l2] i w Hmap; try discriminate;
    [reflexivity|].
  cbn in Hmap. injection Hmap as Hhd Htl. destruct i as [|i]; cbn [execute_at].
  - eapply obs_bind; [exact (Hc c2 w Hhd)|].
    intros [[x1 w1] s1] [[x2 w2] s2] E. cbn in E. injection E as E1 E2 E3. subst.
    cbn. now rewrite E1, Htl.
  - eapply obs_bind; [exact (IH l2 i w Htl)|].
    intros [[x1 w1] s1] [[x2 w2] s2] E. cbn in E. injection E as E1 E2 E3. subst.
    cbn. now rewrite E1, Hhd.
Qed.

Lemma parallel_each_obs l1 :
  Forall (fun c1 => forall c2 w, view a c1 = view a c2 ->
                      observe a (ex c1 w) = observe a (ex c2 w)) l1 ->
  forall l2 index vec w c, map (view a) l1 = map (view a) l2 ->
    obs_parallel a (parallel_each ex l1 index vec w c)
    = obs_parallel a (parallel_each ex l2 index vec w c).
Proof.
  induction 1 as [|c1 l1 Hc _ IH]; intros [|c2 l2] index vec w c Hmap; try discriminate;
    [reflexivity|].
  cbn in Hmap. injection Hmap as Hhd Htl. cbn [parallel_each].
  eapply (obs_bind (fun r => (view a r.1.1, r.1.2, r.2))).
  - destruct (decide (vec !! index = Some RUNNING)).
    + eapply obs_bind; [exact (Hc c2 w Hhd)|].
      intros [[x1 w1] s1] [[x2 w2] s2] E. cbn in E. injection E as E1 E2 E3. subst.
      cbn. now rewrite E1.
    + cbn. now rewrite Hhd.
  - intros [[x1 v1] w1] [[x2 v2] w2] E. cbn in E. injection E as E1 E2 E3. subst.
    eapply obs_bind; [exact (IH l2 (S index) v2 w2 _ Htl)|].
    intros [[[y1 u1] z1] k1] [[[y2 u2] z2] k2] E. cbn in E.
    injection E as E4 E5 E6 E7. subst. cbn. now rewrite E1, E4.
Qed.
End Children.

Lemma map_view_length a (l1 l2 : list BehaviorNode) :
  map (view a) l1 = map (view a) l2 -> length l1 = length l2.
Proof. intros H. apply (f_equal length) in H. now rewrite !length_map in H. Qed.

Ltac cong :=
  first
    [ reflexivity
    | congruence
    | repeat match goal with
             | E : view _ _ = view _ _ |- _ => rewrite ?E; clear E
             | E : map (view _) _ = map (view _) _ |- _ => rewrite ?E; clear E
             | E : _ !! _ = _ !! _ |- _ => rewrite ?E; clear E
             end;
      reflexivity ].

(** [reset] for agent [a] depends on the entries of [a] only. *)
Lemma reset_obs n1 :
  forall n2 a w, view a n1 = view a n2 ->
    obs_reset a (reset n1 a w) = obs_reset a (reset n2 a w).
Proof.
  induction n1 using node_ind; intros n2 a w Hv; destruct n2; try discriminate;
    cbn in Hv; cbn [reset].
  1, 2, 6:
    injection Hv as; eapply obs_bind;
      [eapply reset_each_obs; [|eassumption];
       eapply Forall_impl; [exact H|]; intros c1 Hc c2 w0 Hc12; now apply Hc|];
    intros [x1 w1] [x2 w2] E; cbn in E; injection E as E1 E2; subst; cbn;
    rewrite !lookup_delete_eq; congruence.
  - injection Hv as Hv. eapply obs_bind; [exact (IHn1 _ a w Hv)|].
    intros [x1 w1] [x2 w2] E; cbn in E; injection E as E1 E2; subst; cbn. congruence.
  - cbn. congruence.
  - injection Hv as -> -> -> Hr. rewrite Hr.
    eapply (obs_bind (fun x => x)); [reflexivity|].
    intros x y ->. cbn. now rewrite !lookup_delete_eq.
  - injection Hv as Hv. eapply obs_bind; [exact (IHn1 _ a w Hv)|].
    intros [x1 w1] [x2 w2] E; cbn in E; injection E as E1 E2; subst; cbn. congruence.
  - injection Hv as -> Hr. cbn. now rewrite !lookup_delete_eq.
Qed.

(** A tick for agent [a] depends on the entries of [a] only. *)
Lemma execute_obs n1 :
  forall n2 a w dt, view a n1 = view a n2 ->
    observe a (execute n1 a w dt) = observe a (execute n2 a w dt).
Proof.
  induction n1 using node_ind; intros n2 a w dt Hv; destruct n2; try discriminate;
    cbn in Hv; cbn [execute]; rewrite ?init_lookup;
    try change (default 0%nat (Some ?x)) with x.
  - (* Sequence *)
    injection Hv as Hc Hi. rewrite (map_view_length _ _ _ Hc).
    assert (Hidx : default 0%nat (ci !! a) = default 0%nat (currentIndex !! a))
      by now rewrite Hi.
    rewrite Hidx. destruct (_ <=? _)%nat.
    { cbn. rewrite !init_lookup. cong. }
    eapply obs_bind.
    { eapply execute_at_obs; [|exact Hc].
      eapply Forall_impl; [exact H|]. intros c1 Hc1 c2 w0 Hc12. now apply Hc1. }
    intros [[x1 w1] s1] [[x2 w2] s2] E. cbn in E. injection E as E1 E2 E3. subst.
    destruct s2; [destruct (_ <=? _)%nat|..]; cbn;
      rewrite ?lookup_insert_eq, ?init_lookup; cong.
  - (* Selector *)
    injection Hv as Hc Hi. rewrite (map_view_length _ _ _ Hc).
    assert (Hidx : default 0%nat (ci !! a) = default 0%nat (currentIndex !! a))
      by now rewrite Hi.
    rewrite Hidx. destruct (_ <=? _)%nat.
    { cbn. rewrite !init_lookup. cong. }
    eapply obs_bind.
    { eapply execute_at_obs; [|exact Hc].
      eapply Forall_impl; [exact H|]. intros c1 Hc1 c2 w0 Hc12. now apply Hc1. }
    intros [[x1 w1] s1] [[x2 w2] s2] E. cbn in E. injection E as E1 E2 E3. subst.
    destruct s2; [|destruct (_ <=? _)%nat|]; cbn;
      rewrite ?lookup_insert_eq, ?init_lookup; cong.
  - (* Inverter *)
    injection Hv as Hv. eapply obs_bind; [exact (IHn1 _ a w dt Hv)|].
    intros [[x1 w1] s1] [[x2 w2] s2] E. cbn in E. injection E as E1 E2 E3. subst.
    cbn. cong.
  - injection Hv as ->. reflexivity.
  - (* Action *)
    injection Hv as -> -> -> Hr. rewrite Hr.
    eapply (obs_bind (fun x => x)); [reflexivity|]. intros w1 ? <-.
    eapply (obs_bind (fun x => x)); [reflexivity|]. intros [w2 s2] ? <-.
    destruct (decide (s2 = RUNNING)).
    + cbn. now rewrite !lookup_insert_eq.
    + eapply (obs_bind (fun x => x)); [reflexivity|]. intros w3 ? <-.
      cbn. now rewrite !lookup_insert_eq.
  - (* Parallel *)
    injection Hv as Hc -> Hi. rewrite (map_view_length _ _ _ Hc).
    change (default [] (Some ?x)) with x.
    assert (Hidx : default (replicate (length children0) RUNNING) (t !! a)
                   = default (replicate (length children0) RUNNING) (statuses !! a))
      by now rewrite Hi.
    rewrite Hidx.
    eapply obs_bind.
    { eapply parallel_each_obs; [|exact Hc].
      eapply Forall_impl; [exact H|]. intros c1 Hc1 c2 w0 Hc12. now apply Hc1. }
    intros [[[x1 v1] w1] k1] [[[x2 v2] w2] k2] E. cbn in E.
    injection E as E1 E2 E3 E4. subst.
    destruct (_ <=? _)%Z; [|destruct (_ <? _)%Z]; cbn;
      rewrite ?lookup_delete_eq, ?lookup_insert_eq; cong.
  - (* RepeatUntilFailure *)
    injection Hv as Hv. eapply obs_bind; [exact (IHn1 _ a w dt Hv)|].
    intros [[x1 w1] s1] [[x2 w2] s2] E. cbn in E. injection E as E1 E2 E3. subst.
    destruct s2; cbn; try cong.
    eapply obs_bind; [exact (reset_obs _ _ a w2 E1)|].
    intros [y1 v1] [y2 v2] E. cbn in E. injection E as E4 E5. subst. cbn. cong.
  - (* Wait *)
    injection Hv as -> Hr.
    change (default 0%R (Some ?x)) with x.
    assert (Hidx : default 0%R (t !! a) = default 0%R (timeElapsed !! a)) by now rewrite Hr.
    rewrite Hidx.
    destruct (Rleb _ _); cbn; rewrite ?lookup_delete_eq, ?lookup_insert_eq; cong.
Qed.

Lemma safe_all_insert l i c : safe_all l -> safe c -> safe_all (<[i := c]> l).
Proof.
  revert i. induction l as [|x l IH]; intros i Hl Hc; [exact I|].
  destruct Hl as [Hx Hl]. destruct i; cbn; auto. split; [assumption|]. now apply IH.
Qed.

Lemma safe_all_lookup l i c : safe_all l -> l !! i = Some c -> safe c.
Proof.
  revert i. induction l as [|x l IH]; intros i Hl Hi; [discriminate|].
  destruct Hl as [Hx Hl]. destruct i; cbn in Hi; [now inversion Hi; subst | eauto].
Qed.

Section Totality.
Variable a : string.

Lemma reset_each_total (rs : BehaviorNode -> World -> Outcome (BehaviorNode * World)) l :
  Forall (fun c => safe c -> forall w, exists r, rs c w = Ret r /\ safe r.1) l ->
  safe_all l ->
  forall w, exists r, reset_each rs l w = Ret r /\ safe_all r.1.
Proof.
  induction 1 as [|c l Hc _ IH]; intros Hs w; cbn [reset_each].
  - eexists; split; [reflexivity | exact I].
  - destruct Hs as [Hsc Hsl]. destruct (Hc Hsc w) as ([c' w1] & E1 & S1). rewrite E1. cbn.
    destruct (IH Hsl w1) as ([l' w2] & E2 & S2). rewrite E2. cbn.
    eexists; split; [reflexivity|]. cbn. auto.
Qed.

Variable ex : Tick.

Lemma parallel_each_total l :
  Forall (fun c => safe c -> forall w, exists r, ex c w = Ret r /\ safe r.1.1) l ->
  safe_all l ->
  forall index vec w c, exists r, parallel_each ex l index vec w c = Ret r /\ safe_all r.1.1.1.
Proof.
  induction 1 as [|child l Hc _ IH]; intros Hs index vec w c; cbn [parallel_each].
  - eexists; split; [reflexivity | exact I].
  - destruct Hs as [Hsc Hsl]. destruct (decide (vec !! index = Some RUNNING)).
    + destruct (Hc Hsc w) as ([[c' w1] s] & E1 & S1). rewrite E1. cbn.
      edestruct (IH Hsl) as ([[[l' v2] w2] c2] & E2 & S2). rewrite E2. cbn.
      eexists; split; [reflexivity|]. cbn. auto.
    + cbn. edestruct (IH Hsl) as ([[[l' v2] w2] c2] & E2 & S2). rewrite E2. cbn.
      eexists; split; [reflexivity|]. cbn. auto.
Qed.
End Totality.

(** [reset] returns when the hooks of the tree do. *)
Lemma reset_total n :
  safe n -> forall a w, exists r, reset n a w = Ret r /\ safe r.1.
Proof.
  induction n using node_ind; intros Hs a w; cbn [reset].
  1, 2, 6:
    destruct (reset_each_total (fun c w => reset c a w) children) with (w := w)
      as ([l' w1] & E & S);
      [eapply Forall_impl; [exact H|]; intros c Hc Hsc w0; now apply Hc
      | exact Hs |];
    rewrite E; cbn; eexists; split; [reflexivity | exact S].
  - destruct (IHn Hs a w) as ([c' w1] & E & S). rewrite E. cbn. eauto.
  - eauto.
  - destruct Hs as (Hf & Hen & Hex). destruct (default false (t !! a)).
    + destruct (Hex a w) as [w1 E]. rewrite E. cbn. eexists; split; [reflexivity|].
      cbn. auto.
    + cbn. eexists; split; [reflexivity|]. cbn. auto.
  - destruct (IHn Hs a w) as ([c' w1] & E & S). rewrite E. cbn. eauto.
  - eauto.
Qed.

(** A tick returns when the closures of the tree do. *)
Lemma execute_total n :
  safe n -> forall a w dt, exists r, execute n a w dt = Ret r /\ safe r.1.1.
Proof.
  induction n using node_ind; intros Hs a w dt; cbn [execute]; rewrite ?init_lookup;
    try change (default 0%nat (Some ?x)) with x.
  - destruct (Nat.leb_spec (length children) (default 0%nat (ci !! a))) as [Hle|Hlt].
    { eexists; split; [reflexivity | exact Hs]. }
    destruct (lookup_lt_is_Some_2 children _ Hlt) as [c Hc].
    rewrite (execute_at_lookup _ _ _ _ _ Hc).
    eapply Forall_lookup_1 in H; [|exact Hc].
    destruct (H (safe_all_lookup _ _ _ Hs Hc) a w dt) as ([[c' w1] s] & E & S).
    rewrite E. cbn.
    assert (safe_all (<[default 0%nat (ci !! a) := c']> children))
      by now apply safe_all_insert.
    destruct s; [destruct (_ <=? _)%nat|..]; eexists; split; try reflexivity; assumption.
  - destruct (Nat.leb_spec (length children) (default 0%nat (ci !! a))) as [Hle|Hlt].
    { eexists; split; [reflexivity | exact Hs]. }
    destruct (lookup_lt_is_Some_2 children _ Hlt) as [c Hc].
    rewrite (execute_at_lookup _ _ _ _ _ Hc).
    eapply Forall_lookup_1 in H; [|exact Hc].
    destruct (H (safe_all_lookup _ _ _ Hs Hc) a w dt) as ([[c' w1] s] & E & S).
    rewrite E. cbn.
    assert (safe_all (<[default 0%nat (ci !! a) := c']> children))
      by now apply safe_all_insert.
    destruct s; [|destruct (_ <=? _)%nat|]; eexists; split; try reflexivity; assumption.
  - destruct (IHn Hs a w dt) as ([[c' w1] s] & E & S). rewrite E. cbn. eauto.
  - eauto.
  - destruct Hs as (Hf & Hen & Hex).
    assert (exists w1, (if negb (default false (t !! a)) then run_hook en a w else Ret w)
                       = Ret w1) as [w1 E1].
    { destruct (negb _); [apply Hen | eauto]. }
    rewrite E1. cbn. destruct (Hf a w1 dt) as ([w2 s] & E2). rewrite E2. cbn.
    destruct (decide (s = RUNNING)).
    + eexists; split; [reflexivity|]. cbn. auto.
    + destruct (Hex a w2) as [w3 E3]. rewrite E3. cbn.
      eexists; split; [reflexivity|]. cbn. auto.
  - edestruct (parallel_each_total (fun c w => execute c a w dt) children)
      as ([[[l' v1] w1] c1] & E & S);
      [eapply Forall_impl; [exact H|]; intros c Hc Hsc w0; now apply Hc
      | exact Hs |].
    rewrite E. cbn.
    destruct (_ <=? _)%Z; [|destruct (_ <? _)%Z]; eexists; split; try reflexivity; exact S.
  - destruct (IHn Hs a w dt) as ([[c' w1] s] & E & S). rewrite E. cbn. cbn in S.
    destruct s; eauto.
    destruct (reset_total _ S a w1) as ([c2 w2] & E2 & S2). rewrite E2. cbn. eauto.
  - destruct (Rleb _ _); eauto.
Qed.

End BTFacts.

(** ** Ticks and resets of behaviour trees *)

Module BTClaims.
Import BT BTSpec BTFacts.

(** C10: a [Sequence] without children returns [SUCCESS] on every tick and a
    [Selector] without children returns [FAILURE] on every tick, whatever its
    table holds; the node still has no children afterwards, the world is
    untouched, and the only table entry that can change is the ticking
    agent's own index. *)
Theorem empty_composite_returns (ci : gmap string nat) (a : string) (w : World) (dt : R) :
  (exists ci', execute (Sequence [] ci) a w dt = Ret (Sequence [] ci', w, SUCCESS)
     /\ forall b, b <> a -> ci' !! b = ci !! b) /\
  (exists ci', execute (Selector [] ci) a w dt = Ret (Selector [] ci', w, FAILURE)
     /\ forall b, b <> a -> ci' !! b = ci !! b).
Proof.
  split; eexists; (split; [reflexivity|]); intros b Hb; now apply init_lookup_ne.
Qed.

(** C3: one tick of a [Sequence]. The index of an agent without an entry is 0.
    The child at the index is ticked; [RUNNING] gives [RUNNING] and leaves the
    index, [FAILURE] gives [FAILURE] and index 0, [SUCCESS] advances the index
    and gives [SUCCESS] with index 0 when the advanced index is the number of
    children, [RUNNING] otherwise ([Sequence_spec]). The entries of other
    agents stay. *)
Theorem Sequence_tick children (ci : gmap string nat) a w dt child child' w' status :
  let index := default 0%nat (ci !! a) in
  children !! index = Some child ->
  execute child a w dt = Ret (child', w', status) ->
  exists ci',
    execute (Sequence children ci) a w dt =
      Ret (Sequence (<[index := child']> children) ci', w',
           (Sequence_spec (length children) index status).1)
    /\ ci' !! a = Some (Sequence_spec (length children) index status).2
    /\ forall b, b <> a -> ci' !! b = ci !! b.
Proof.
  intros index Hchild Hex.
  assert (Hlt : (index < length children)%nat) by (eapply lookup_lt_Some; eauto).
  cbn [execute]. rewrite init_lookup.
  change (default 0%nat (Some (default 0%nat (ci !! a)))) with index.
  destruct (Nat.leb_spec (length children) index) as [Hle|_]; [lia|].
  rewrite (execute_at_lookup _ _ _ _ _ Hchild), Hex. cbn.
  destruct status; cbn.
  - destruct (Nat.leb_spec (length children) (index + 1)) as [Hle|Hgt];
      destruct (Nat.eqb_spec (index + 1) (length children)) as [He|Hne]; try lia;
      eexists; (split; [reflexivity|]); cbn; split.
    + apply lookup_insert_eq.
    + intros b Hb. rewrite !lookup_insert_ne by congruence. now apply init_lookup_ne.
    + apply lookup_insert_eq.
    + intros b Hb. rewrite !lookup_insert_ne by congruence. now apply init_lookup_ne.
  - eexists; (split; [reflexivity|]); split.
    + apply lookup_insert_eq.
    + intros b Hb. rewrite !lookup_insert_ne by congruence. now apply init_lookup_ne.
  - eexists; (split; [reflexivity|]); split.
    + apply init_lookup.
    + intros b Hb. now apply init_lookup_ne.
Qed.

Lemma Sequence_tick_witness :
  exists ci',
    execute (Sequence [Demo.always true; Wait 1 ∅] ∅) "guard" Demo.world 1 =
      Ret (Sequence [Demo.always true; Wait 1 ∅] ci', Demo.world, RUNNING)
    /\ ci' !! "guard" = Some 1%nat
    /\ forall b, b <> "guard" -> ci' !! b = (∅ : gmap string nat) !! b.
Proof.
  exact (Sequence_tick [Demo.always true; Wait 1 ∅] ∅ "guard" Demo.world 1
           (Demo.always true) (Demo.always true) Demo.world SUCCESS eq_refl eq_refl).
Defined.

(** C4: one tick of a [Parallel]. [requiredSuccesses] defaults to the number
    of children. With [vec] the vector recorded for the agent (all [RUNNING]
    when there is none) and [vec'] the vector after the tick: a child whose
    recorded status is not [RUNNING] is left alone and keeps that status, a
    child recorded as [RUNNING] is ticked and its status recorded; the result
    is [SUCCESS] iff the successes in [vec'] reach [requiredSuccesses],
    [FAILURE] iff the failures exceed the number of children minus
    [requiredSuccesses], [RUNNING] otherwise; the agent's vector is removed
    exactly when the result is not [RUNNING]. The tick returns whenever the
    closures of the children do. *)
Theorem Parallel_tick children k (statuses : gmap string (list BehaviorStatus)) a w dt :
  (forall v, statuses !! a = Some v -> length v = length children) ->
  let vec := default (replicate (length children) RUNNING) (statuses !! a) in
  new_Parallel children None = Parallel children (Z.of_nat (length children)) ∅ /\
  (safe_all children ->
     exists n' w' status, execute (Parallel children k statuses) a w dt = Ret (n', w', status)) /\
  forall n' w' status,
  execute (Parallel children k statuses) a w dt = Ret (n', w', status) ->
  exists children' statuses' vec',
    n' = Parallel children' k statuses' /\
    length children' = length children /\ length vec' = length children /\
    (forall i s, vec !! i = Some s -> s <> RUNNING ->
       vec' !! i = Some s /\ children' !! i = children !! i) /\
    (forall i, vec !! i = Some RUNNING ->
       exists child wi child' wi' s,
         children !! i = Some child /\ execute child a wi dt = Ret (child', wi', s) /\
         children' !! i = Some child' /\ vec' !! i = Some s) /\
    (status = SUCCESS <-> (k <= Z.of_nat (count_of SUCCESS vec'))%Z) /\
    (status = FAILURE <->
       (Z.of_nat (length children) - k < Z.of_nat (count_of FAILURE vec'))%Z) /\
    (status = RUNNING <->
       ~ (k <= Z.of_nat (count_of SUCCESS vec'))%Z /\
       ~ (Z.of_nat (length children) - k < Z.of_nat (count_of FAILURE vec'))%Z) /\
    statuses' !! a = (if decide (status = RUNNING) then Some vec' else None) /\
    (forall b, b <> a -> statuses' !! b = statuses !! b).
Proof.
  intros Hwf vec. split.
  { unfold new_Parallel. cbn. reflexivity. }
  split.
  { intros Hsafe.
    destruct (execute_total (Parallel children k statuses) Hsafe a w dt)
      as ([[n' w'] status] & Hrun & _).
    now exists n', w', status. }
  intros n' w' status Hex.
  cbn [execute] in Hex. rewrite init_lookup in Hex.
  change (default [] (Some ?x)) with x in Hex. fold vec in Hex.
  assert (Hvec : length vec = length children).
  { unfold vec. destruct (statuses !! a) as [v|] eqn:E; cbn.
    - now apply Hwf.
    - apply length_replicate. }
  destruct (parallel_each _ children 0 vec w _) as [[[[children' vec'] w1] c]| |] eqn:Hpar;
    try discriminate.
  apply parallel_each_spec in Hpar as (Hl1 & Hl2 & _ & Hat & Hcount); [|cbn; lia].
  cbn zeta in Hcount. rewrite drop_0 in Hcount.
  rewrite firstn_all2 in Hcount by lia. cbn in Hcount.
  destruct Hcount as (Hc1 & Hc2 & Hc3).
  pose proof (count_of_total vec') as Htot.
  cbn in Hex.
  set (tbl := <[a:=vec']> _) in Hex.
  assert (Hothers : forall b, b <> a -> tbl !! b = statuses !! b).
  { intros b Hb. unfold tbl. rewrite lookup_insert_ne by congruence. now apply init_lookup_ne. }
  assert (Hretain : forall i s, vec !! i = Some s -> s <> RUNNING ->
            vec' !! i = Some s /\ children' !! i = children !! i).
  { intros i s Hi Hs.
    assert (Hlt : (i < length children)%nat) by (apply lookup_lt_Some in Hi; lia).
    destruct (lookup_lt_is_Some_2 children i Hlt) as [ch Hch].
    destruct (Hat i ch Hch) as [Hkeep _]. cbn in Hkeep.
    destruct Hkeep as [Hc Hv]; [rewrite Hi; congruence|].
    rewrite Hv, Hc, Hch. auto. }
  assert (Hredo : forall i, vec !! i = Some RUNNING ->
            exists child wi child' wi' s,
              children !! i = Some child /\ execute child a wi dt = Ret (child', wi', s) /\
              children' !! i = Some child' /\ vec' !! i = Some s).
  { intros i Hi.
    assert (Hlt : (i < length children)%nat) by (apply lookup_lt_Some in Hi; lia).
    destruct (lookup_lt_is_Some_2 children i Hlt) as [ch Hch].
    destruct (Hat i ch Hch) as [_ Hrun]. cbn in Hrun.
    destruct (Hrun Hi) as (wi & ch' & wi' & s & E1 & E2 & E3).
    exists ch, wi, ch', wi', s. auto. }
  assert (Hdec : forall P Q : Prop, ~ (P /\ Q) -> P -> ~ Q) by tauto.
  destruct (Z.leb_spec k (Z.of_nat (successCount c))) as [Hs|Hs];
    [|destruct (Z.ltb_spec (Z.of_nat (length children) - k) (Z.of_nat (failureCount c)))
        as [Hf|Hf]];
    inversion Hex; subst; clear Hex;
    [exists children', (delete a tbl), vec' | exists children', (delete a tbl), vec'
    | exists children', tbl, vec'];
    split_and!; try assumption; try reflexivity; try lia;
    try (split; intros; try discriminate; try reflexivity; try lia;
         try (destruct_and?; lia); fail).
  - apply lookup_delete_eq.
  - intros b Hb. rewrite lookup_delete_ne by congruence. now apply Hothers.
  - apply lookup_delete_eq.
  - intros b Hb. rewrite lookup_delete_ne by congruence. now apply Hothers.
  - apply lookup_insert_eq.
Qed.

Lemma Parallel_tick_witness :
  exists n' w' status,
    execute (Parallel [Demo.always true; Demo.busy] 2 ∅) "guard" Demo.world 1
      = Ret (n', w', status) /\
    status = RUNNING /\
    exists children' statuses' vec',
      n' = Parallel children' 2 statuses' /\
      length children' = 2%nat /\ length vec' = 2%nat /\
      (forall i s, replicate 2 RUNNING !! i = Some s -> s <> RUNNING ->
         vec' !! i = Some s /\ children' !! i = [Demo.always true; Demo.busy] !! i) /\
      (forall i, replicate 2 RUNNING !! i = Some RUNNING ->
         exists child wi child' wi' s,
           [Demo.always true; Demo.busy] !! i = Some child /\
           execute child "guard" wi 1 = Ret (child', wi', s) /\
           children' !! i = Some child' /\ vec' !! i = Some s) /\
      (status = SUCCESS <-> (2 <= Z.of_nat (count_of SUCCESS vec'))%Z) /\
      (status = FAILURE <-> (Z.of_nat 2 - 2 < Z.of_nat (count_of FAILURE vec'))%Z) /\
      (status = RUNNING <->
         ~ (2 <= Z.of_nat (count_of SUCCESS vec'))%Z /\
         ~ (Z.of_nat 2 - 2 < Z.of_nat (count_of FAILURE vec'))%Z) /\
      statuses' !! "guard" = (if decide (status = RUNNING) then Some vec' else None) /\
      (forall b, b <> "guard" ->
         statuses' !! b = (∅ : gmap string (list BehaviorStatus)) !! b).
Proof.
  eexists _, _, _. split; [reflexivity|]. split; [reflexivity|].
  refine (proj2 (proj2 (Parallel_tick [Demo.always true; Demo.busy] 2 ∅ "guard" Demo.world 1 _))
            _ _ _ eq_refl).
  intros v Hv. discriminate Hv.
Defined.

(** C2: [reset] for agent [a] leaves no entry of [a] in any table of the tree
    and keeps the entries of every other agent; the tick of [a] that follows
    is observed by [a] exactly as its tick on the same tree in any state in
    which [a] has no entry, that is, as a first tick: same status, same world,
    same entries of [a] afterwards, or the same error. [reset] returns
    whenever the closures of the tree do. *)
Theorem reset_then_execute n a w :
  (safe n -> exists n' w', reset n a w = Ret (n', w')) /\
  forall n' w',
  reset n a w = Ret (n', w') ->
  fresh a n' /\
  (forall b, b <> a -> view b n' = view b n) /\
  (forall n0 v dt, pristine n0 = pristine n -> fresh a n0 ->
     observe a (execute n' a v dt) = observe a (execute n0 a v dt)).
Proof.
  split.
  { intros Hsafe. destruct (reset_total n Hsafe a w) as ([n' w'] & Hrun & _).
    now exists n', w'. }
  intros n' w' Hreset. destruct (reset_view _ _ _ _ _ Hreset) as (Hfresh & Hshape & Hothers).
  split_and!.
  - unfold fresh. now rewrite Hshape.
  - exact Hothers.
  - intros n0 v dt Hn0 Hf. apply execute_obs. unfold fresh in Hf.
    now rewrite Hfresh, Hf, Hn0.
Qed.

Lemma reset_then_execute_witness :
  exists n' w',
    reset Demo.used_tree "guard" Demo.world = Ret (n', w') /\
    fresh "guard" n' /\
    (forall b, b <> "guard" -> view b n' = view b Demo.used_tree) /\
    (forall n0 v dt, pristine n0 = pristine Demo.used_tree -> fresh "guard" n0 ->
       observe "guard" (execute n' "guard" v dt) = observe "guard" (execute n0 "guard" v dt)).
Proof.
  eexists _, _. split; [reflexivity|].
  exact (proj2 (reset_then_execute Demo.used_tree "guard" Demo.world) _ _ eq_refl).
Defined.

End BTClaims.

(** ** Agent locomotion *)

Module AgClaims.
Import Ag AgSpec.
Local Open Scope R_scope.



(** Arrival: within the stopping distance. *)
Lemma moveTowards_near (a : Agent) (tr : Transform) (target : Vec3) (dt : R) :
  transform (gameObject a) = Some tr ->
  Nav.heuristic (t_position tr) target <= stoppingDistance (config a) ->
  moveTowards a (Some target) dt = Ret (setVelocity a (0, 0, 0), true).
Proof.
  intros Htr Hd. unfold moveTowards. rewrite Htr.
  change (sqrt _) with (Nav.heuristic (t_position tr) target).
  now rewrite Rleb_true.
Qed.



Lemma heuristic_along_x (x0 x1 y z : R) :
  x0 <= x1 -> Nav.heuristic (x0, y, z) (x1, y, z) = x1 - x0.
Proof.
  intros H. unfold Nav.heuristic. cbn [vx vy vz fst snd].
  replace (_ + _ + _) with ((x1 - x0) * (x1 - x0)) by ring.
  apply sqrt_square. lra.
Qed.



Lemma moveTowards_keeps_path a target dt a' reached :
  moveTowards a target dt = Ret (a', reached) ->
  path a' = path a /\ currentPathIndex a' = currentPathIndex a /\
  blackboard a' = blackboard a /\ currentTarget a' = currentTarget a /\
  config a' = config a /\ behaviorTree a' = behaviorTree a.
Proof.
  unfold moveTowards. destruct (transform (gameObject a)) as [tr|].
  - destruct target as [target|]; [|discriminate].
    destruct (Rleb _ _); intros H; inversion H; subst; cbn; auto 10.
  - intros H; inversion H; subst. auto 10.
Qed.

Lemma setPath_cursor_ok a p : cursor_ok (setPath a p).
Proof.
  unfold cursor_ok. cbn. destruct p; [left; auto | right; cbn; lia].
Qed.

Lemma new_Agent_cursor_ok go c : cursor_ok (new_Agent go c).
Proof. left. auto. Qed.

(** C8: [followPath] on an empty path returns true at once. Otherwise it
    calls [moveTowards] on the waypoint at the cursor; it returns true exactly
    when that call reports arrival and the waypoint was the last one, and it
    has then emptied the path and reset the cursor to 0; on any other arrival
    the cursor advances by one, and without arrival nothing but the motion
    changes; in both cases it returns false. *)
Theorem followPath_spec (a : Agent) (dt : R) :
  (path a = [] -> followPath a dt = Ret (a, true)) /\
  (forall waypoint a' reached,
     path a !! currentPathIndex a = Some waypoint ->
     moveTowards a waypoint dt = Ret (a', reached) ->
     exists a'' completed,
       followPath a dt = Ret (a'', completed) /\
       (completed = true <->
          reached = true /\ S (currentPathIndex a) = length (path a)) /\
       path a'' = (if completed then [] else path a) /\
       currentPathIndex a'' =
         (if completed then 0
          else if reached then S (currentPathIndex a) else currentPathIndex a)%nat /\
       gameObject a'' = gameObject a' /\ velocity a'' = velocity a' /\
       blackboard a'' = blackboard a /\ currentTarget a'' = currentTarget a /\
       cursor_ok a'').
Proof.
  split.
  - intros Hp. unfold followPath. now rewrite Hp.
  - intros waypoint a' reached Hw Hmove.
    assert (Hlt : (currentPathIndex a < length (path a))%nat)
      by (eapply lookup_lt_Some; eauto).
    destruct (moveTowards_keeps_path _ _ _ _ _ Hmove) as (Hp & Hc & Hb & Ht & _).
    unfold followPath. destruct (path a) as [|w0 rest] eqn:Epath; [cbn in Hlt; lia|].
    rewrite <- Epath in *. rewrite Hw. cbn [mjoin option_join]. rewrite Hmove.
    destruct reached.
    + rewrite Hp, Hc.
      destruct (Nat.leb_spec (length (path a)) (S (currentPathIndex a))) as [Hle|Hgt].
      * eexists _, true. split; [reflexivity|]. cbn.
        split_and!; auto; try (left; cbn; auto; fail).
        split; [intros _; split; [reflexivity | lia] | auto].
      * eexists _, false. split; [reflexivity|]. cbn.
        split_and!; auto; try (right; cbn; lia).
        split; [discriminate | intros [_ ?]; lia].
    + eexists _, false. split; [reflexivity|].
      split_and!; auto; try (right; rewrite Hp, Hc; lia).
      split; [discriminate | intros [? _]; discriminate].
Qed.

Lemma followPath_spec_witness :
  exists a'' completed,
    followPath (setPath Demo.agent [Some (0.25, 0, 0)]) 0.5 = Ret (a'', completed) /\
    completed = true /\ path a'' = [] /\ currentPathIndex a'' = 0%nat.
Proof.
  pose proof (heuristic_along_x 0 0.25 0 0 ltac:(lra)) as Hdist.
  assert (Hnear : moveTowards (setPath Demo.agent [Some (0.25, 0, 0)]) (Some (0.25, 0, 0)) 0.5
                  = Ret (setVelocity (setPath Demo.agent [Some (0.25, 0, 0)]) (0, 0, 0), true)).
  { apply (moveTowards_near (setPath Demo.agent [Some (0.25, 0, 0)]) _ (0.25, 0, 0) 0.5 eq_refl).
    cbn [Demo.agent new_Agent gameObject Demo.object transform t_position config
         Demo.config stoppingDistance setPath].
    rewrite Hdist. lra. }
  destruct (proj2 (followPath_spec (setPath Demo.agent [Some (0.25, 0, 0)]) 0.5)
              (Some (0.25, 0, 0)) _ true eq_refl Hnear)
    as (a'' & completed & Hrun & Hdone & Hpath & Hcur & _).
  assert (Hc : completed = true) by (apply Hdone; split; reflexivity).
  exists a'', completed. subst completed. auto.
Defined.
End AgClaims.

(** ** The orchestrator and the behaviour factories *)

Module SysClaims.
Import BT BTSpec BTFacts Sys SysSpec.
Local Open Scope R_scope.

(** C5 (as amended): [removeAgent] takes the agent, and with it its
    blackboard, out of the registry and leaves every other agent, the mesh and
    every behaviour tree as they are. *)
Theorem removeAgent_registry st id :
  NoDup (omap_keys (agents (system st))) ->
  getAgent (removeAgent st id) id = None /\
  (forall id', id' <> id -> getAgent (removeAgent st id) id' = getAgent st id') /\
  NoDup (omap_keys (agents (system (removeAgent st id)))) /\
  trees (removeAgent st id) = trees st /\
  navigationMesh (system (removeAgent st id)) = navigationMesh (system st).
Proof.
  intros Hnd. unfold getAgent, removeAgent. cbn. split_and!; try reflexivity.
  - now apply omap_get_delete_eq.
  - intros id' Hne. apply omap_get_delete_ne. congruence.
  - now apply omap_keys_delete_NoDup.
Qed.

Ltac keys :=
  cbn -[Rleb Rltb];
  repeat (first [ rewrite decide_True by reflexivity
                | rewrite decide_False by discriminate
                | rewrite lookup_singleton_eq
                | rewrite lookup_insert_eq
                | rewrite lookup_insert_ne by discriminate
                | rewrite lookup_delete_eq
                | rewrite lookup_empty ];
          cbn -[Rleb Rltb]).

Lemma removeAgent_registry_witness :
  getAgent (removeAgent shared_state "guard") "guard" = None /\
  (forall id', id' <> "guard" ->
     getAgent (removeAgent shared_state "guard") id' = getAgent shared_state id') /\
  NoDup (omap_keys (agents (system (removeAgent shared_state "guard")))) /\
  trees (removeAgent shared_state "guard") = trees shared_state /\
  navigationMesh (system (removeAgent shared_state "guard"))
    = navigationMesh (system shared_state).
Proof.
  apply (removeAgent_registry shared_state "guard").
  cbn. apply NoDup_cons. split.
  - intros H. apply list_elem_of_singleton in H. discriminate H.
  - apply NoDup_singleton.
Defined.

(** C5 as stated fails: after two agents have ticked a shared [Wait] and one
    of them is removed, the node still holds the elapsed time of the removed
    agent. *)
Lemma removeAgent_leaves_node_state :
  exists st,
    update shared_state 0.4 = Ret st /\
    getAgent (removeAgent st "guard") "guard" = None /\
    is_Some (getAgent (removeAgent st "guard") "scout") /\
    exists t, trees (removeAgent st "guard") !! 0%nat = Some t /\
              ~ fresh "guard" (root t) /\
              view "guard" (root t) = VWait 1 (Some (0 + 0.4)).
Proof.
  eexists. split.
  - unfold update, shared_state. cbn -[Rleb]. unfold Agent_update, tree_execute.
    keys. rewrite Rleb_false by lra. keys.
    rewrite Rleb_false by lra. keys. reflexivity.
  - unfold getAgent, removeAgent. keys. split; [reflexivity|]. split; [eauto|].
    eexists. split; [reflexivity|]. split; [|reflexivity].
    unfold fresh. keys. discriminate.
Qed.

Lemma pristine_Action n f en ex :
  pristine n = Action f en ex ∅ -> exists t, n = Action f en ex t.
Proof. destruct n; cbn; intros H; try discriminate. injection H as -> -> ->. eauto. Qed.

(** An [Action] that ends runs its [onExit] hook on what the action left. *)
Lemma Action_exit f en ex t a w dt n' w' s :
  execute (Action f en ex t) a w dt = Ret (n', w', s) ->
  s <> RUNNING ->
  exists w2, run_hook ex a w2 = Ret w'.
Proof.
  cbn [execute]. intros Hrun Hs.
  apply bind_Ret in Hrun as (w1 & _ & Hrun).
  apply bind_Ret in Hrun as ([w2 s2] & _ & Hrun). cbn in Hrun.
  destruct (decide (s2 = RUNNING)).
  - inversion Hrun; subst. contradiction.
  - apply bind_Ret in Hrun as (w3 & E & Hrun). inversion Hrun; subst. eauto.
Qed.

(** An [Action] without [onExit] that ends leaves what the action left. *)
Lemma Action_exit_plain f en t a w dt n' w' s :
  execute (Action f en None t) a w dt = Ret (n', w', s) ->
  exists w1, f a w1 dt = Ret (w', s).
Proof.
  cbn [execute]. intros Hrun.
  apply bind_Ret in Hrun as (w1 & _ & Hrun).
  apply bind_Ret in Hrun as ([w2 s2] & E & Hrun). cbn in Hrun.
  destruct (decide (s2 = RUNNING)); inversion Hrun; subst; eauto.
Qed.

(** [reset] of an active [Action] runs its [onExit] hook. *)
Lemma Action_reset_active f en ex t a w n' w' :
  t !! a = Some true ->
  reset (Action f en ex t) a w = Ret (n', w') ->
  run_hook ex a w = Ret w'.
Proof.
  intros Ht. cbn [reset]. rewrite Ht. cbn. intros Hrun.
  apply bind_Ret in Hrun as (w1 & E & Hrun). inversion Hrun; subst. exact E.
Qed.

Lemma Action_reset_plain f en t a w n' w' :
  reset (Action f en None t) a w = Ret (n', w') -> w' = w.
Proof.
  cbn [reset]. destruct (default false (t !! a)); cbn; intros H; now inversion H.
Qed.

(** C6 (as amended): each factory returns one [Action] node. The chase node
    has both hooks: entry sets [chaseTimer] to 0, and after the node ends or
    is reset while active the agent has an empty path, no target and no
    [chaseTimer]. The patrol node has both hooks: entry sets [patrolIndex] to
    0 and the path to the first point, and after the node ends or is reset
    while active the path is empty. The wander and flee nodes have no hooks:
    resetting them leaves the agent exactly as the action left it. *)
Theorem factory_hooks (fuel : nat) (a : string) (w : World) :
  (* every factory returns one Action node with an empty table *)
  (forall points loop, exists f en ex,
      createPatrolBehavior points loop = Action f (Some en) (Some ex) ∅) /\
  (forall sel rate, exists f en ex,
      createChaseBehavior fuel sel rate = Action f (Some en) (Some ex) ∅) /\
  (forall radius minDistance, exists f,
      createWanderBehavior radius minDistance = Action f None None ∅) /\
  (forall sel fleeDistance, exists f,
      createFleeFromBehavior sel fleeDistance = Action f None None ∅) /\
  (* chase: what is set up on entry, and the complete tear-down *)
  (exists w1, chase_onEnter a w = Ret w1 /\
              Ag.blackboard (self w1) !! "chaseTimer" = Some (Ag.VNumber 0)) /\
  (forall sel rate n dt n' w' s,
      pristine n = createChaseBehavior fuel sel rate ->
      execute n a w dt = Ret (n', w', s) -> s <> RUNNING -> chase_torn_down (self w')) /\
  (forall sel rate n n' w',
      pristine n = createChaseBehavior fuel sel rate -> active a n ->
      reset n a w = Ret (n', w') -> chase_torn_down (self w')) /\
  (* patrol: what is set up on entry, and the path cleared on exit *)
  (forall points, exists w1,
      patrol_onEnter points a w = Ret w1 /\
      Ag.blackboard (self w1) !! "patrolIndex" = Some (Ag.VIndex 0) /\
      (forall p rest, points = p :: rest -> Ag.path (self w1) = [Some p])) /\
  (forall points loop n dt n' w' s,
      pristine n = createPatrolBehavior points loop ->
      execute n a w dt = Ret (n', w', s) -> s <> RUNNING -> Ag.path (self w') = []) /\
  (forall points loop n n' w',
      pristine n = createPatrolBehavior points loop -> active a n ->
      reset n a w = Ret (n', w') -> Ag.path (self w') = []) /\
  (* wander and flee have no hooks: reset leaves the agent as it is *)
  (forall radius minDistance n n' w',
      pristine n = createWanderBehavior radius minDistance ->
      reset n a w = Ret (n', w') -> w' = w) /\
  (forall sel fleeDistance n n' w',
      pristine n = createFleeFromBehavior sel fleeDistance ->
      reset n a w = Ret (n', w') -> w' = w).
Proof.
  split_and!.
  - intros. eexists _, _, _. reflexivity.
  - intros. eexists _, _, _. reflexivity.
  - intros. eexists. reflexivity.
  - intros. eexists. reflexivity.
  - eexists. split; [reflexivity|]. cbn. apply lookup_insert_eq.
  - intros sel rate n dt n' w' s Hn Hrun Hs.
    apply pristine_Action in Hn as [t ->].
    destruct (Action_exit _ _ _ _ _ _ _ _ _ _ Hrun Hs) as [w2 Hex].
    cbn in Hex. inversion Hex; subst. cbn. split_and!; auto. apply lookup_delete_eq.
  - intros sel rate n n' w' Hn (f & en & ex & t & -> & Ht) Hrun.
    cbn in Hn. injection Hn as -> -> ->.
    apply (Action_reset_active _ _ _ _ _ _ _ _ Ht) in Hrun.
    cbn in Hrun. inversion Hrun; subst. cbn. split_and!; auto. apply lookup_delete_eq.
  - intros points. eexists. split; [reflexivity|]. cbn. split.
    + destruct points; cbn; apply lookup_insert_eq.
    + intros p rest ->. reflexivity.
  - intros points loop n dt n' w' s Hn Hrun Hs.
    apply pristine_Action in Hn as [t ->].
    destruct (Action_exit _ _ _ _ _ _ _ _ _ _ Hrun Hs) as [w2 Hex].
    cbn in Hex. inversion Hex; subst. reflexivity.
  - intros points loop n n' w' Hn (f & en & ex & t & -> & Ht) Hrun.
    cbn in Hn. injection Hn as -> -> ->.
    apply (Action_reset_active _ _ _ _ _ _ _ _ Ht) in Hrun.
    cbn in Hrun. inversion Hrun; subst. reflexivity.
  - intros radius minDistance n n' w' Hn Hrun.
    apply pristine_Action in Hn as [t ->]. eapply Action_reset_plain; eauto.
  - intros sel fleeDistance n n' w' Hn Hrun.
    apply pristine_Action in Hn as [t ->]. eapply Action_reset_plain; eauto.
Qed.

Lemma factory_hooks_witness :
  exists n' w',
    execute (createChaseBehavior 4 (fun _ _ => None) 0) "guard" Demo.world 0.1
      = Ret (n', w', FAILURE) /\
    chase_torn_down (self w').
Proof.
  assert (Hrun : exists n' w',
            execute (createChaseBehavior 4 (fun _ _ => None) 0) "guard" Demo.world 0.1
              = Ret (n', w', FAILURE)).
  { unfold createChaseBehavior, new_Action. cbn [execute]. keys.
    unfold chase_action, Ag.hasBlackboardValue, Ag.getBlackboardValue. keys.
    rewrite Rleb_true by lra. keys.
    eexists _, _. reflexivity. }
  destruct Hrun as (n' & w' & Hrun). exists n', w'. split; [exact Hrun|].
  destruct (factory_hooks 4 "guard" Demo.world) as (_ & _ & _ & _ & _ & Hchase & _).
  refine (Hchase (fun _ _ => None) 0 (createChaseBehavior 4 (fun _ _ => None) 0)
            0.1 n' w' FAILURE eq_refl Hrun _).
  discriminate.
Defined.

(** C6 as stated fails: the path that the wander behaviour sets is still on
    the agent after the node is reset. *)
Lemma wander_path_survives_reset :
  Ag.path (self Demo.world) = [] /\
  exists n1 w1 n2 w2,
    execute (createWanderBehavior 10 5) "guard" Demo.world 0.1 = Ret (n1, w1, RUNNING) /\
    reset n1 "guard" w1 = Ret (n2, w2) /\
    Ag.path (self w2) <> [].
Proof.
  split; [reflexivity|].
  eexists _, _, _, _. split; [reflexivity|]. split.
  - cbn. rewrite lookup_insert_eq. cbn. reflexivity.
  - cbn. discriminate.
Qed.
End SysClaims.

(** ** Path finding on the navigation graph *)

Module NavClaims.
Import Nav NavSpec NavFacts.
Local Open Scope R_scope.

Lemma heuristic_on_x (x0 x1 y z : R) :
  heuristic (x0, y, z) (x1, y, z) = Rabs (x1 - x0).
Proof.
  unfold heuristic. cbn [vx vy vz fst snd].
  replace (_ + _ + _) with ((x1 - x0)²) by (unfold Rsqr; ring).
  apply sqrt_Rsqr_abs.
Qed.

Lemma abc_nodes : nodes Demo.abc = [(1%Z, Demo.nodeA); (2%Z, Demo.nodeB); (3%Z, Demo.nodeC)].
Proof. reflexivity. Qed.

Lemma abc_distances :
  heuristic Demo.pA Demo.pA = 0 /\ heuristic Demo.pA Demo.pB = 5 /\ heuristic Demo.pA Demo.pC = 10 /\
  heuristic Demo.pB Demo.pA = 5 /\ heuristic Demo.pB Demo.pB = 0 /\ heuristic Demo.pB Demo.pC = 5 /\
  heuristic Demo.pC Demo.pA = 10 /\ heuristic Demo.pC Demo.pB = 5 /\ heuristic Demo.pC Demo.pC = 0.
Proof.
  unfold Demo.pA, Demo.pB, Demo.pC. rewrite !heuristic_on_x.
  repeat split; unfold Rabs; destruct (Rcase_abs _); lra.
Qed.

Ltac number :=
  repeat first
    [ rewrite Rltb_true by lra
    | rewrite Rltb_false by lra
    | rewrite lookup_insert_eq
    | rewrite lookup_singleton_eq
    | rewrite lookup_insert_ne by discriminate
    | rewrite lookup_singleton_ne by discriminate
    | rewrite lookup_empty
    | rewrite decide_True by reflexivity
    | rewrite decide_False by discriminate
    | rewrite bool_decide_eq_false_2 by (apply not_elem_of_nil) ].

Lemma abc_closest_A : getClosestNode Demo.abc Demo.pA = Some Demo.nodeA.
Proof.
  destruct abc_distances as (AA & AB & AC & BA & BB & BC & CA & CB & CC).
  unfold getClosestNode. rewrite abc_nodes.
  cbn [map snd fold_left]. unfold closer.
  cbn [position Demo.nodeA Demo.nodeB Demo.nodeC snd fst].
  rewrite AA. cbn [score_lt snd fst].
  rewrite AB. cbn [score_lt snd fst]. number.
  rewrite AC. cbn [score_lt snd fst]. number. reflexivity.
Qed.




Lemma abc_built : built Demo.abc.
Proof. unfold Demo.abc. repeat constructor. Qed.

Lemma abc_well_keyed : well_keyed Demo.abc.
Proof. exact (built_well_keyed _ abc_built). Qed.





(** C9: [connectNodes] with an id that is not registered writes the error to
    the console and returns the graph as it was. *)
Theorem connectNodes_unknown_node g fromId toId bidirectional :
  omap_get (nodes g) fromId = None \/ omap_get (nodes g) toId = None ->
  connectNodes g fromId toId bidirectional = (g, [CannotConnect fromId toId]).
Proof.
  intros H. unfold connectNodes.
  destruct (omap_get (nodes g) fromId); [|reflexivity].
  destruct (omap_get (nodes g) toId); [|reflexivity].
  destruct H; discriminate.
Qed.

Lemma connectNodes_unknown_node_witness :
  connectNodes Demo.abc 1 4 true = (Demo.abc, [CannotConnect 1 4]).
Proof.
  apply connectNodes_unknown_node. right. reflexivity.
Defined.
End NavClaims.

(** * Further properties of the code *)

(** ** Insertion-ordered maps, continued *)

Section OMapMore.
Context {K V : Type} `{EqDecision K}.
Implicit Types m : omap K V.

Lemma omap_set_fresh m k v : omap_get m k = None -> omap_set m k v = m ++ [(k, v)].
Proof.
  induction m as [|[k0 v0] m IH]; cbn [omap_get omap_set app]; [reflexivity|].
  destruct (decide (k0 = k)); [discriminate|]. intros H. now rewrite IH.
Qed.

Lemma omap_keys_set_present m k v x :
  omap_get m k = Some x -> omap_keys (omap_set m k v) = omap_keys m.
Proof.
  induction m as [|[k0 v0] m IH]; cbn [omap_get omap_set]; [discriminate|].
  destruct (decide (k0 = k)) as [->|Hne]; [reflexivity|].
  intros H. cbn. f_equal. now apply IH.
Qed.

Lemma omap_delete_absent m k : omap_get m k = None -> omap_delete m k = m.
Proof.
  induction m as [|[k0 v0] m IH]; cbn [omap_get omap_delete]; [reflexivity|].
  destruct (decide (k0 = k)); [discriminate|]. intros H. now rewrite IH.
Qed.

Lemma omap_delete_set_fresh m k v :
  omap_get m k = None -> omap_delete (omap_set m k v) k = m.
Proof.
  induction m as [|[k0 v0] m IH]; cbn [omap_get omap_set omap_delete].
  - intros _. now rewrite decide_True.
  - destruct (decide (k0 = k)) as [->|Hne]; [discriminate|]. intros H.
    cbn [omap_delete]. rewrite decide_False by assumption. now rewrite IH.
Qed.
End OMapMore.

(** ** The navigation graph *)

Module NavExtra.
Import Nav NavSpec NavFacts NavMore.
Local Open Scope R_scope.







(** X4: [addNode] registers the id with the position and no connection and
    appends the position to [vertices]. Every other id keeps its node. A new
    id goes last in the iteration order; an id that was registered keeps its
    place, but its node is replaced, so the connections it had are gone. *)
Theorem addNode_registers g i p :
  omap_get (nodes (addNode g i p)) i = Some (mkNode i p []) /\
  (forall j, j <> i -> omap_get (nodes (addNode g i p)) j = omap_get (nodes g) j) /\
  omap_keys (nodes (addNode g i p)) =
    (if bool_decide (i ∈ omap_keys (nodes g)) then omap_keys (nodes g)
     else omap_keys (nodes g) ++ [i]) /\
  vertices (addNode g i p) = vertices g ++ [p] /\
  indices (addNode g i p) = indices g /\
  (well_keyed g -> well_keyed (addNode g i p)).
Proof.
  unfold addNode. cbn [nodes vertices indices]. split_and!.
  - apply omap_get_set_eq.
  - intros j Hj. apply omap_get_set_ne. congruence.
  - apply omap_keys_set.
  - reflexivity.
  - reflexivity.
  - intros Hwk. now apply well_keyed_set.
Qed.


(** X10: the connections of a node behave as a map from node id to cost:
    [addConnection] makes the cost the one found under the id (replacing an
    earlier one), [removeConnection] leaves none under it, neither touches
    another id, the node's own id or its position. *)
Theorem connection_roundtrip n j c :
  omap_get (connections (addConnection n j c)) j = Some c /\
  (forall k, k <> j ->
     omap_get (connections (addConnection n j c)) k = omap_get (connections n) k /\
     omap_get (connections (removeConnection n j)) k = omap_get (connections n) k) /\
  (NoDup (omap_keys (connections n)) ->
     omap_get (connections (removeConnection n j)) j = None /\
     omap_get (connections (removeConnection (addConnection n j c) j)) j = None /\
     NoDup (omap_keys (connections (addConnection n j c))) /\
     NoDup (omap_keys (connections (removeConnection n j)))) /\
  id (addConnection n j c) = id n /\ position (addConnection n j c) = position n /\
  id (removeConnection n j) = id n /\ position (removeConnection n j) = position n.
Proof.
  unfold addConnection, removeConnection. cbn [connections id position].
  split_and!; try reflexivity.
  - apply omap_get_set_eq.
  - intros k Hk. split.
    + apply omap_get_set_ne. congruence.
    + apply omap_get_delete_ne. congruence.
  - intros Hnd. split_and!.
    + now apply omap_get_delete_eq.
    + apply omap_get_delete_eq. now apply omap_keys_set_NoDup.
    + now apply omap_keys_set_NoDup.
    + now apply omap_keys_delete_NoDup.
Qed.

(** X5: [connectNodes] between two registered nodes writes nothing to the
    console and stores the Euclidean distance between the two positions as
    the cost from the first to the second node, and with [bidirectional] also
    as the cost from the second to the first. The registered ids and their
    order, every node's id and position, [vertices], and every other
    connection stay as they are; without [bidirectional] every other node is
    untouched. *)
Theorem connectNodes_registered g a b bidirectional na nb :
  omap_get (nodes g) a = Some na -> omap_get (nodes g) b = Some nb ->
  let cost := heuristic (position na) (position nb) in
  let g' := fst (connectNodes g a b bidirectional) in
  snd (connectNodes g a b bidirectional) = [] /\
  vertices g' = vertices g /\
  omap_keys (nodes g') = omap_keys (nodes g) /\
  (forall k n, omap_get (nodes g) k = Some n ->
     exists n', omap_get (nodes g') k = Some n' /\
       id n' = id n /\ position n' = position n /\
       forall j, (k, j) <> (a, b) -> (bidirectional = false \/ (k, j) <> (b, a)) ->
         omap_get (connections n') j = omap_get (connections n) j) /\
  (exists na', omap_get (nodes g') a = Some na' /\ omap_get (connections na') b = Some cost) /\
  (bidirectional = true ->
     exists nb', omap_get (nodes g') b = Some nb' /\ omap_get (connections nb') a = Some cost) /\
  (bidirectional = false ->
     forall k, k <> a -> omap_get (nodes g') k = omap_get (nodes g) k).
Proof.
  intros Ha Hb cost g'. subst g'. unfold connectNodes. rewrite Ha, Hb. fold cost.
  set (na1 := addConnection na b cost).
  set (nodes1 := omap_set (nodes g) a na1).
  assert (Hk1 : omap_keys nodes1 = omap_keys (nodes g))
    by (eapply omap_keys_set_present; eauto).
  destruct bidirectional.
  - destruct (decide (a = b)) as [<-|Hab].
    + (* a self-connection: the node receives the cost twice *)
      assert (Hget1 : omap_get nodes1 a = Some na1) by apply omap_get_set_eq.
      rewrite Hget1. cbn [fst snd nodes vertices]. split_and!; try reflexivity.
      * erewrite omap_keys_set_present; [exact Hk1 | exact Hget1].
      * intros k n Hk. destruct (decide (a = k)) as [<-|Hne].
        { rewrite omap_get_set_eq. eexists. split; [reflexivity|].
          rewrite Ha in Hk. inversion Hk; subst n. cbn [addConnection id position connections na1].
          split; [reflexivity|]. split; [reflexivity|].
          intros j Hj _. assert (a <> j) by congruence.
          now rewrite !omap_get_set_ne by assumption. }
        rewrite omap_get_set_ne by assumption. unfold nodes1.
        rewrite omap_get_set_ne by assumption. eauto 10.
      * rewrite omap_get_set_eq. eexists. split; [reflexivity|]. apply omap_get_set_eq.
      * intros _. rewrite omap_get_set_eq. eexists. split; [reflexivity|]. apply omap_get_set_eq.
      * discriminate.
    + assert (Hget1 : omap_get nodes1 b = Some nb)
        by (unfold nodes1; now rewrite omap_get_set_ne by assumption).
      rewrite Hget1. cbn [fst snd nodes vertices]. split_and!; try reflexivity.
      * erewrite omap_keys_set_present; [exact Hk1 | exact Hget1].
      * intros k n Hk. destruct (decide (b = k)) as [<-|Hbk].
        { rewrite omap_get_set_eq. eexists. split; [reflexivity|].
          rewrite Hb in Hk. inversion Hk; subst n. cbn [addConnection id position connections].
          split; [reflexivity|]. split; [reflexivity|].
          intros j _ [Hj|Hj]; [discriminate|]. assert (a <> j) by congruence.
          now rewrite omap_get_set_ne by assumption. }
        rewrite omap_get_set_ne by assumption. unfold nodes1.
        destruct (decide (a = k)) as [<-|Hak].
        { rewrite omap_get_set_eq. eexists. split; [reflexivity|].
          rewrite Ha in Hk. inversion Hk; subst n. cbn [addConnection id position connections na1].
          split; [reflexivity|]. split; [reflexivity|].
          intros j Hj _. assert (b <> j) by congruence.
          now rewrite omap_get_set_ne by assumption. }
        rewrite omap_get_set_ne by assumption. eauto 10.
      * rewrite omap_get_set_ne by congruence. unfold nodes1. rewrite omap_get_set_eq.
        eexists. split; [reflexivity|]. apply omap_get_set_eq.
      * intros _. rewrite omap_get_set_eq. eexists. split; [reflexivity|]. apply omap_get_set_eq.
      * discriminate.
  - cbn [fst snd nodes vertices]. split_and!; try reflexivity.
    + exact Hk1.
    + intros k n Hk. unfold nodes1. destruct (decide (a = k)) as [<-|Hak].
      { rewrite omap_get_set_eq. eexists. split; [reflexivity|].
        rewrite Ha in Hk. inversion Hk; subst n. cbn [addConnection id position connections na1].
        split; [reflexivity|]. split; [reflexivity|].
        intros j Hj _. assert (b <> j) by congruence.
        now rewrite omap_get_set_ne by assumption. }
      rewrite omap_get_set_ne by assumption. eauto 10.
    + unfold nodes1. rewrite omap_get_set_eq. eexists. split; [reflexivity|].
      apply omap_get_set_eq.
    + discriminate.
    + intros _ k Hk. unfold nodes1. apply omap_get_set_ne. congruence.
Qed.

Lemma connectNodes_registered_witness :
  exists na',
    omap_get (nodes (fst (connectNodes Demo.abc 1 3 false))) 1%Z = Some na' /\
    omap_get (connections na') 3%Z = Some (heuristic Demo.pA Demo.pC).
Proof.
  exact (proj1 (proj2 (proj2 (proj2 (proj2
           (connectNodes_registered Demo.abc 1 3 false Demo.nodeA Demo.nodeC eq_refl eq_refl)))))).
Defined.

Lemma positions_set (m : omap Z NavMeshNode) (i : Z) (x v : NavMeshNode) :
  omap_get m i = Some x -> position v = position x ->
  map (fun e => position (snd e)) (omap_set m i v) = map (fun e => position (snd e)) m.
Proof.
  intros Hget Hpos. induction m as [|[k y] m IH]; [discriminate|].
  cbn [omap_get omap_set] in *. destruct (decide (k = i)) as [->|Hne].
  - inversion Hget; subst. cbn. now rewrite Hpos.
  - cbn. now rewrite IH.
Qed.

(** X6: a mesh that is built from the empty one by [addNode] with ids not
    yet registered and by [connectNodes] keeps three invariants: the
    registered ids are distinct and each is the id of its node; every
    connection leads to a registered node and costs the Euclidean distance
    between the two positions; [vertices] lists the node positions in the
    order of registration. *)
Theorem built_invariants g :
  built g -> well_keyed g /\ euclidean g /\ vertices g = positions g.
Proof.
  intros Hb. split; [now apply built_well_keyed|]. split; [now apply built_euclidean|].
  induction Hb as [|g i p _ IH Hnew|g a b bi _ IH].
  - reflexivity.
  - unfold positions, addNode. cbn [vertices nodes].
    rewrite omap_set_fresh by assumption. rewrite map_app, IH. reflexivity.
  - unfold connectNodes.
    destruct (omap_get (nodes g) a) as [na|] eqn:Ha; [|exact IH].
    destruct (omap_get (nodes g) b) as [nb|] eqn:Hb; [|exact IH].
    set (na1 := addConnection na b _).
    assert (P1 : map (fun e => position (snd e)) (omap_set (nodes g) a na1) = positions g)
      by (now apply positions_set with (x := na)).
    destruct bi; cbn [fst vertices]; unfold positions at 1; cbn [nodes]; [|now rewrite P1].
    destruct (omap_get (omap_set (nodes g) a na1) b) as [nb'|] eqn:Hb'; [|now rewrite P1].
    erewrite positions_set; [now rewrite P1 | exact Hb' | reflexivity].
Qed.

Lemma built_invariants_witness :
  well_keyed Demo.abc /\ euclidean Demo.abc /\ vertices Demo.abc = positions Demo.abc.
Proof. exact (built_invariants Demo.abc NavClaims.abc_built). Defined.



(** X8: when the start and the end position have the same nearest node,
    [findPath] returns that node's position alone. *)
Theorem findPath_same_node g start finish fuel n m :
  well_keyed g ->
  getClosestNode g start = Some n -> getClosestNode g finish = Some m -> id n = id m ->
  (0 < fuel)%nat ->
  findPath fuel g start finish = Ret [position n].
Proof.
  intros Hwk Hs Ht Hid Hfuel.
  pose proof (getClosestNode_spec g start) as Hn. rewrite Hs in Hn.
  pose proof (getClosestNode_spec g finish) as Hm. rewrite Ht in Hm.
  pose proof (nearest_registered g start n Hwk Hn) as Rn.
  pose proof (nearest_registered g finish m Hwk Hm) as Rm.
  rewrite Hid in Rn. rewrite Rm in Rn. inversion Rn; subst m. clear Rn.
  unfold findPath. rewrite Hs, Ht.
  destruct fuel as [|fuel]; [lia|]. cbn [search openSet lowest].
  rewrite decide_True by reflexivity.
  unfold reconstructPath. cbn [cameFrom]. rewrite Rm.
  cbn [reconstruct_loop]. now rewrite lookup_empty.
Qed.

Lemma findPath_same_node_witness :
  findPath 1 Demo.abc Demo.pA Demo.pA = Ret [Demo.pA].
Proof.
  apply (findPath_same_node Demo.abc Demo.pA Demo.pA 1 Demo.nodeA Demo.nodeA
           NavClaims.abc_well_keyed NavClaims.abc_closest_A NavClaims.abc_closest_A eq_refl).
  lia.
Defined.

Lemma random_index_bound (u : R) (n : nat) :
  0 <= u < 1 -> (0 < n)%nat -> (random_index u n < n)%nat.
Proof.
  intros [Hu0 Hu1] Hn. unfold random_index.
  destruct (base_Int_part (u * INR n)) as [Hlow Hhigh].
  assert (Hpos : 0 < INR n) by (apply lt_0_INR; lia).
  assert (Hlt : IZR (Int_part (u * INR n)) < IZR (Z.of_nat n)).
  { rewrite <- INR_IZR_INZ. nra. }
  apply lt_IZR in Hlt. lia.
Qed.

(** X9: [getRandomPoint] on a mesh without nodes returns the origin; on any
    other mesh, for a value of [Math.random()] in [0, 1), it returns the
    position of the node registered at place [floor(u * count)] of the
    iteration order. *)
Theorem getRandomPoint_registered g u :
  0 <= u < 1 ->
  match nodes g with
  | [] => getRandomPoint g u = (0, 0, 0)
  | _ =>
      exists i k n,
        i = random_index u (length (nodes g)) /\ (i < length (nodes g))%nat /\
        omap_keys (nodes g) !! i = Some k /\
        omap_get (nodes g) k = Some n /\ (k, n) ∈ nodes g /\
        getRandomPoint g u = position n
  end.
Proof.
  intros Hu. unfold getRandomPoint.
  destruct (nodes g) as [|e rest] eqn:E; [reflexivity|]. rewrite <- E.
  assert (Hlen : (0 < length (nodes g))%nat) by (rewrite E; cbn; lia).
  destruct (omap_keys (nodes g)) as [|k0 ks] eqn:Ek.
  { apply (f_equal length) in Ek. unfold omap_keys in Ek. rewrite length_map in Ek.
    cbn in Ek. lia. }
  rewrite <- Ek.
  assert (Hk : length (omap_keys (nodes g)) = length (nodes g)) by apply length_map.
  rewrite Hk.
  pose proof (random_index_bound u (length (nodes g)) Hu Hlen) as Hi.
  destruct (lookup_lt_is_Some_2 (omap_keys (nodes g)) (random_index u (length (nodes g))))
    as [k Hlook]; [lia|].
  rewrite Hlook.
  assert (Hreg : is_Some (omap_get (nodes g) k)).
  { apply omap_get_keys. apply list_elem_of_In. eapply list_elem_of_lookup_2. exact Hlook. }
  destruct Hreg as [n Hn]. rewrite Hn.
  exists (random_index u (length (nodes g))), k, n. split_and!; auto.
  apply list_elem_of_In. now apply omap_get_In.
Qed.

Lemma getRandomPoint_registered_witness :
  exists i k n,
    i = random_index 0.5 (length (nodes Demo.abc)) /\ (i < length (nodes Demo.abc))%nat /\
    omap_keys (nodes Demo.abc) !! i = Some k /\
    omap_get (nodes Demo.abc) k = Some n /\ (k, n) ∈ nodes Demo.abc /\
    getRandomPoint Demo.abc 0.5 = position n.
Proof.
  assert (Hu : 0 <= 0.5 < 1) by lra.
  exact (getRandomPoint_registered Demo.abc 0.5 Hu).
Defined.
End NavExtra.

(** ** Behaviour trees *)

Module BTExtra.
Import BT BTSpec BTFacts BTMore.
Local Open Scope R_scope.

(** X11: one tick of a [Selector], the mirror image of a [Sequence]. The
    child at the agent's index (0 without an entry) is ticked; [RUNNING]
    gives [RUNNING] and leaves the index, [SUCCESS] gives [SUCCESS] and index
    0, [FAILURE] advances the index and gives [FAILURE] with index 0 when
    that was the last child, [RUNNING] otherwise. No other child is ticked
    and the entries of other agents stay. *)
Theorem Selector_tick children (ci : gmap string nat) a w dt child child' w' status :
  let index := default 0%nat (ci !! a) in
  children !! index = Some child ->
  execute child a w dt = Ret (child', w', status) ->
  exists ci',
    execute (Selector children ci) a w dt =
      Ret (Selector (<[index := child']> children) ci', w',
           (Selector_spec (length children) index status).1)
    /\ ci' !! a = Some (Selector_spec (length children) index status).2
    /\ forall b, b <> a -> ci' !! b = ci !! b.
Proof.
  intros index Hchild Hex.
  assert (Hlt : (index < length children)%nat) by (eapply lookup_lt_Some; eauto).
  cbn [execute]. rewrite init_lookup.
  change (default 0%nat (Some (default 0%nat (ci !! a)))) with index.
  destruct (Nat.leb_spec (length children) index) as [Hle|_]; [lia|].
  rewrite (execute_at_lookup _ _ _ _ _ Hchild), Hex. cbn.
  assert (Hothers : forall (t : gmap string nat) b, b <> a ->
            (forall c, c <> a -> t !! c = ci !! c) -> forall v, <[a := v]> t !! b = ci !! b).
  { intros t b Hb Ht v. rewrite lookup_insert_ne by congruence. now apply Ht. }
  assert (Hinit : forall c, c <> a ->
            (if bool_decide (is_Some (ci !! a)) then ci else <[a := 0%nat]> ci) !! c = ci !! c).
  { intros c Hc. now apply init_lookup_ne. }
  destruct status; cbn.
  - eexists. split; [reflexivity|]. split; [apply lookup_insert_eq|].
    intros b Hb. now apply Hothers.
  - destruct (Nat.leb_spec (length children) (index + 1)) as [Hle|Hgt];
      destruct (Nat.eqb_spec (index + 1) (length children)) as [He|Hne]; try lia;
      eexists; (split; [reflexivity|]); cbn; (split; [apply lookup_insert_eq|]);
      intros b Hb; rewrite ?lookup_insert_ne by congruence; now apply Hinit.
  - eexists. split; [reflexivity|]. split; [apply init_lookup|].
    intros b Hb. now apply Hinit.
Qed.

Lemma Selector_tick_witness :
  exists ci',
    execute (Selector [Demo.always false; Demo.always true] ∅) "guard" Demo.world 1 =
      Ret (Selector [Demo.always false; Demo.always true] ci', Demo.world, RUNNING)
    /\ ci' !! "guard" = Some 1%nat
    /\ forall b, b <> "guard" -> ci' !! b = (∅ : gmap string nat) !! b.
Proof.
  exact (Selector_tick [Demo.always false; Demo.always true] ∅ "guard" Demo.world 1
           (Demo.always false) (Demo.always false) Demo.world FAILURE eq_refl eq_refl).
Defined.

(** X12: an [Inverter] swaps [SUCCESS] and [FAILURE] of its child and passes
    [RUNNING], the child's new state and the world on; two of them on top of
    each other give the child's own status. *)
Theorem Inverter_tick n a w dt :
  execute (Inverter n) a w dt
    = (fun r => (Inverter r.1.1, r.1.2, invert r.2)) <$> execute n a w dt /\
  execute (Inverter (Inverter n)) a w dt
    = (fun r => (Inverter (Inverter r.1.1), r.1.2, r.2)) <$> execute n a w dt /\
  (forall n' w' s, execute (Inverter n) a w dt = Ret (n', w', s) ->
     s = RUNNING <-> exists n1, execute n a w dt = Ret (n1, w', RUNNING)).
Proof.
  cbn [execute]. destruct (execute n a w dt) as [[[n1 w1] s1]| |]; cbn.
  - split_and!.
    + now destruct s1.
    + now destruct s1.
    + intros n' w' s H. inversion H; subst. split.
      * intros Hs. exists n1. now destruct s1.
      * intros [n2 H2]. inversion H2; subst. reflexivity.
  - split_and!; try reflexivity. discriminate.
  - split_and!; try reflexivity. discriminate.
Qed.

(** X13: the life cycle of an [Action] for one agent. A tick runs [onEnter]
    only when the agent is not active in the node, then the action, then
    [onExit] only when the action did not return [RUNNING]; afterwards the
    agent is active exactly when the status is [RUNNING], and the flags of
    other agents are as before. A [reset] that follows runs [onExit] when the
    agent is still active and nothing otherwise, so that no activation is
    exited twice. *)
Theorem Action_lifecycle f en ex (t : gmap string bool) a w dt n' w' s :
  execute (Action f en ex t) a w dt = Ret (n', w', s) ->
  exists t',
    n' = Action f en ex t' /\
    t' !! a = Some (bool_decide (s = RUNNING)) /\
    (forall b, b <> a -> t' !! b = t !! b) /\
    (exists w1 w2,
       (if default false (t !! a) then w1 = w else run_hook en a w = Ret w1) /\
       f a w1 dt = Ret (w2, s) /\
       (if bool_decide (s = RUNNING) then w' = w2 else run_hook ex a w2 = Ret w')) /\
    (forall v,
       reset n' a v =
       if bool_decide (s = RUNNING)
       then (fun v' => (Action f en ex (delete a t'), v')) <$> run_hook ex a v
       else Ret (Action f en ex (delete a t'), v)).
Proof.
  cbn [execute]. intros Hrun.
  apply bind_Ret in Hrun as (w1 & Henter & Hrun).
  apply bind_Ret in Hrun as ([w2 s2] & Hact & Hrun). cbn in Hrun.
  destruct (decide (s2 = RUNNING)) as [->|Hs].
  - inversion Hrun; subst. eexists. split; [reflexivity|].
    rewrite bool_decide_eq_true_2 by reflexivity. split_and!.
    + apply lookup_insert_eq.
    + intros b Hb. apply lookup_insert_ne. congruence.
    + exists w1, w'. split_and!; auto.
      destruct (default false (t !! a)); cbn in Henter; [now inversion Henter | exact Henter].
    + intros v. cbn [reset]. rewrite lookup_insert_eq. cbn.
      destruct (run_hook ex a v); reflexivity.
  - apply bind_Ret in Hrun as (w3 & Hexit & Hrun). inversion Hrun; subst.
    eexists. split; [reflexivity|].
    rewrite bool_decide_eq_false_2 by assumption. split_and!.
    + apply lookup_insert_eq.
    + intros b Hb. rewrite !lookup_insert_ne by congruence. reflexivity.
    + exists w1, w2. split_and!; auto.
      destruct (default false (t !! a)); cbn in Henter; [now inversion Henter | exact Henter].
    + intros v. cbn [reset]. rewrite lookup_insert_eq. reflexivity.
Qed.

Lemma Action_lifecycle_witness :
  exists t',
    execute Demo.busy "guard" Demo.world 1
      = Ret (Action (fun _ w _ => Ret (w, RUNNING)) None None t', Demo.world, RUNNING) /\
    t' !! "guard" = Some true.
Proof.
  assert (Hrun : execute Demo.busy "guard" Demo.world 1
                 = Ret (Action (fun _ w _ => Ret (w, RUNNING)) None None
                          (<["guard" := true]> ∅), Demo.world, RUNNING)).
  { cbn [execute Demo.busy]. rewrite lookup_empty. reflexivity. }
  destruct (Action_lifecycle _ _ _ _ _ _ _ _ _ _ Hrun) as (t' & Hn & Ht & _).
  exists t'. split; [rewrite Hrun, Hn; reflexivity | exact Ht].
Defined.





(** X15: [RepeatUntilFailure] never returns [SUCCESS]. It returns [FAILURE]
    exactly when its child does, and [RUNNING] otherwise; after a [SUCCESS]
    of the child it resets the child for the agent, which then has no entry
    left in the child. *)
Theorem RepeatUntilFailure_tick child a w dt n' w' s :
  execute (RepeatUntilFailure child) a w dt = Ret (n', w', s) ->
  s <> SUCCESS /\
  exists child1 w1 s1,
    execute child a w dt = Ret (child1, w1, s1) /\
    (s = FAILURE <-> s1 = FAILURE) /\
    (s1 <> SUCCESS -> n' = RepeatUntilFailure child1 /\ w' = w1) /\
    (s1 = SUCCESS ->
       exists child2, n' = RepeatUntilFailure child2 /\
         reset child1 a w1 = Ret (child2, w') /\ fresh a child2).
Proof.
  cbn [execute]. intros Hrun.
  apply bind_Ret in Hrun as ([[child1 w1] s1] & Hchild & Hrun). cbn in Hrun.
  destruct s1.
  - apply bind_Ret in Hrun as ([child2 w2] & Hreset & Hrun). inversion Hrun; subst.
    split; [discriminate|]. exists child1, w1, SUCCESS. split; [assumption|].
    split; [split; discriminate|]. split; [congruence|].
    intros _. exists child2. split; [reflexivity|]. split; [assumption|].
    destruct (reset_view _ _ _ _ _ Hreset) as (Hv & Hp & _).
    unfold fresh. now rewrite Hp.
  - inversion Hrun; subst. split; [discriminate|]. exists child1, w', FAILURE.
    split; [assumption|]. split; [tauto|]. split; [auto | discriminate].
  - inversion Hrun; subst. split; [discriminate|]. exists child1, w', RUNNING.
    split; [assumption|]. split; [split; discriminate|]. split; [auto | discriminate].
Qed.

Lemma RepeatUntilFailure_tick_witness :
  RUNNING <> SUCCESS /\
  exists child1 w1 s1,
    execute (Demo.always true) "guard" Demo.world 1 = Ret (child1, w1, s1) /\
    (RUNNING = FAILURE <-> s1 = FAILURE) /\
    (s1 <> SUCCESS -> RepeatUntilFailure (Demo.always true) = RepeatUntilFailure child1
                      /\ Demo.world = w1) /\
    (s1 = SUCCESS ->
       exists child2, RepeatUntilFailure (Demo.always true) = RepeatUntilFailure child2 /\
         reset child1 "guard" w1 = Ret (child2, Demo.world) /\ fresh "guard" child2).
Proof.
  exact (RepeatUntilFailure_tick (Demo.always true) "guard" Demo.world 1
           (RepeatUntilFailure (Demo.always true)) Demo.world RUNNING eq_refl).
Defined.

(** X16: a tick of a tree for agent [a] keeps the shape of the tree and
    changes no entry of any other agent; therefore what an agent observes of
    its own next tick, or of its own reset, does not depend on whether
    another agent was ticked in between. *)
Theorem tick_isolated t a w dt t' w' s :
  tree_execute t a w dt = Ret (t', w', s) ->
  pristine (root t') = pristine (root t) /\
  (forall b, b <> a -> view b (root t') = view b (root t)) /\
  (forall b v dt', b <> a ->
     observe b (execute (root t') b v dt') = observe b (execute (root t) b v dt') /\
     obs_reset b (reset (root t') b v) = obs_reset b (reset (root t) b v)).
Proof.
  unfold tree_execute. intros Hrun.
  apply bind_Ret in Hrun as ([[r w1] s1] & Hroot & Hrun). inversion Hrun; subst. cbn [root].
  destruct (execute_frame _ _ _ _ _ _ _ Hroot) as [Hshape Hothers].
  split; [exact Hshape|]. split; [exact Hothers|].
  intros b v dt' Hb. split.
  - apply execute_obs. now apply Hothers.
  - apply reset_obs. now apply Hothers.
Qed.

Lemma tick_isolated_witness :
  exists t',
    tree_execute (mkTree Demo.used_tree) "guard" Demo.world 0.4
      = Ret (t', Demo.world, RUNNING) /\
    pristine (root t') = pristine Demo.used_tree /\
    (forall b, b <> "guard" -> view b (root t') = view b Demo.used_tree).
Proof.
  assert (Hrun : exists t', tree_execute (mkTree Demo.used_tree) "guard" Demo.world 0.4
                            = Ret (t', Demo.world, RUNNING)).
  { unfold tree_execute, Demo.used_tree. cbn [root execute].
    SysClaims.keys. rewrite Rleb_false by lra. SysClaims.keys. eexists. reflexivity. }
  destruct Hrun as [t' Hrun]. exists t'. split; [exact Hrun|].
  destruct (tick_isolated _ _ _ _ _ _ _ Hrun) as (H1 & H2 & _). auto.
Defined.

(** Every child adds one to exactly one of the three counters. *)
Lemma parallel_each_counts (ex : Tick) children :
  forall index vec w c children' vec' w' c',
    parallel_each ex children index vec w c = Ret (children', vec', w', c') ->
    (runningCount c' + successCount c' + failureCount c'
     = runningCount c + successCount c + failureCount c + length children)%nat.
Proof.
  induction children as [|child rest IH]; intros index vec w c children' vec' w' c' Hrun;
    cbn [parallel_each] in Hrun.
  - inversion Hrun; subst. cbn. lia.
  - apply bind_Ret in Hrun as ([[child1 vec1] w1] & _ & Hrun). cbn in Hrun.
    apply bind_Ret in Hrun as ([[[rest2 vec2] w2] c2] & Hrest & Hrun).
    inversion Hrun; subst. apply IH in Hrest. rewrite Hrest. cbn [length].
    destruct (vec1 !! index) as [[]|]; cbn; lia.
Qed.

(** X17: the thresholds of a [Parallel] at their ends. The constructor
    replaces a negative [requiredSuccesses] by the number of children. A node
    that requires no success returns [SUCCESS] on every tick, and a node that
    requires more successes than it has children returns [FAILURE] on every
    tick, in both cases after the tick has gone through the children; as
    after every tick that does not return [RUNNING], the agent then has no
    status vector in the node. *)
Theorem Parallel_thresholds children k (statuses : gmap string (list BehaviorStatus))
    a w dt n' w' s :
  execute (Parallel children k statuses) a w dt = Ret (n', w', s) ->
  ((k < 0)%Z -> new_Parallel children (Some k) = new_Parallel children None) /\
  ((k <= 0)%Z -> s = SUCCESS) /\
  ((Z.of_nat (length children) < k)%Z -> s = FAILURE) /\
  (s <> RUNNING ->
     exists children' statuses',
       n' = Parallel children' k statuses' /\ statuses' !! a = None).
Proof.
  intros Hrun. split.
  { intros Hk. unfold new_Parallel. change (default (-1)%Z (Some k)) with k.
    change (default (-1)%Z None) with (-1)%Z.
    destruct (Z.ltb_spec k 0) as [_|Hge]; [reflexivity | lia]. }
  cbn [execute] in Hrun.
  apply bind_Ret in Hrun as ([[[children' vec'] w1] c] & Hpar & Hrun). cbn in Hrun.
  apply parallel_each_counts in Hpar. cbn in Hpar.
  destruct (Z.leb_spec k (Z.of_nat (successCount c))) as [Hs|Hs].
  - inversion Hrun; subst. split_and!; try reflexivity.
    + intros Hk. lia.
    + intros _. eexists _, _. split; [reflexivity|]. apply lookup_delete_eq.
  - destruct (Z.ltb_spec (Z.of_nat (length children) - k) (Z.of_nat (failureCount c)))
      as [Hf|Hf]; inversion Hrun; subst; split_and!; try reflexivity; try lia.
    + intros _. eexists _, _. split; [reflexivity|]. apply lookup_delete_eq.
    + intros H. contradiction.
Qed.

Lemma Parallel_thresholds_witness :
  exists n' w',
    execute (Parallel [Demo.busy] 0 ∅) "guard" Demo.world 1 = Ret (n', w', SUCCESS) /\
    exists children' statuses',
      n' = Parallel children' 0 statuses' /\ statuses' !! "guard" = None.
Proof.
  assert (Hrun : exists n' w',
            execute (Parallel [Demo.busy] 0 ∅) "guard" Demo.world 1 = Ret (n', w', SUCCESS)).
  { cbn [execute]. SysClaims.keys. eexists _, _. reflexivity. }
  destruct Hrun as (n' & w' & Hrun). exists n', w'. split; [exact Hrun|].
  destruct (Parallel_thresholds _ _ _ _ _ _ _ _ _ Hrun) as (_ & _ & _ & Hclear).
  apply Hclear. discriminate.
Defined.

Lemma Sequence_condition_step conds (ci : gmap string nat) a w dt c :
  conds !! default 0%nat (ci !! a) = Some c -> c a w = true ->
  let i := default 0%nat (ci !! a) in
  exists ci',
    execute (Sequence (map Condition conds) ci) a w dt
      = Ret (Sequence (map Condition conds) ci', w,
             if (S i =? length conds)%nat then SUCCESS else RUNNING) /\
    ci' !! a = Some (if (S i =? length conds)%nat then 0%nat else S i) /\
    forall b, b <> a -> ci' !! b = ci !! b.
Proof.
  intros Hc Htrue i.
  assert (Hlt : (i < length conds)%nat) by (eapply lookup_lt_Some; eauto).
  cbn [execute]. rewrite init_lookup.
  change (default 0%nat (Some ?x)) with x. fold i. rewrite length_map.
  destruct (Nat.leb_spec (length conds) i) as [Hle|_]; [lia|].
  assert (Hchild : map Condition conds !! i = Some (Condition c))
    by (rewrite list_lookup_fmap; fold i in Hc; now rewrite Hc).
  rewrite (execute_at_lookup _ _ _ _ _ Hchild). cbn [execute]. rewrite Htrue.
  cbn -[Nat.eqb Nat.leb].
  rewrite (list_insert_id _ _ _ Hchild).
  replace (i + 1)%nat with (S i) by lia.
  destruct (Nat.leb_spec (length conds) (S i)) as [Hle|Hgt];
    destruct (Nat.eqb_spec (S i) (length conds)) as [He|Hne]; try lia;
    eexists; (split; [reflexivity|]); (split; [apply lookup_insert_eq|]);
    intros b Hb; rewrite ?lookup_insert_ne by congruence; now apply init_lookup_ne.
Qed.

(** X18: a [Sequence] ticks one child per tick. Over conditions that all
    hold it takes as many ticks as it has children: every tick but the last
    returns [RUNNING] and the last returns [SUCCESS], after which the agent's
    index is 0 again. *)
Theorem Sequence_one_child_per_tick conds a w dt :
  conds <> [] -> Forall (fun c => c a w = true) conds ->
  exists ci',
    ticks (new_Sequence (map Condition conds)) a w (replicate (length conds) dt)
      = Ret (Sequence (map Condition conds) ci', w,
             replicate (length conds - 1) RUNNING ++ [SUCCESS]) /\
    ci' !! a = Some 0%nat.
Proof.
  intros Hne Hall.
  assert (Hgen : forall todo (ci : gmap string nat),
            (default 0%nat (ci !! a) + S todo = length conds)%nat ->
            exists ci',
              ticks (Sequence (map Condition conds) ci) a w (replicate (S todo) dt)
                = Ret (Sequence (map Condition conds) ci', w,
                       replicate todo RUNNING ++ [SUCCESS]) /\
              ci' !! a = Some 0%nat).
  { induction todo as [|todo IH]; intros ci Hi.
    - destruct (lookup_lt_is_Some_2 conds (default 0%nat (ci !! a))) as [c Hc]; [lia|].
      destruct (Sequence_condition_step conds ci a w dt c Hc) as (ci' & Hrun & Ha & _).
      { eapply Forall_lookup_1 in Hall; eauto. }
      cbn zeta in Hrun, Ha.
      destruct (Nat.eqb_spec (S (default 0%nat (ci !! a))) (length conds)); [|lia].
      cbn [replicate ticks]. rewrite Hrun. cbn. eauto.
    - destruct (lookup_lt_is_Some_2 conds (default 0%nat (ci !! a))) as [c Hc]; [lia|].
      destruct (Sequence_condition_step conds ci a w dt c Hc) as (ci1 & Hrun & Ha & _).
      { eapply Forall_lookup_1 in Hall; eauto. }
      cbn zeta in Hrun, Ha.
      destruct (Nat.eqb_spec (S (default 0%nat (ci !! a))) (length conds)); [lia|].
      destruct (IH ci1) as (ci' & Hrest & Ha').
      { rewrite Ha. change (default 0%nat (Some ?x)) with x. lia. }
      change (replicate (S (S todo)) dt) with (dt :: replicate (S todo) dt).
      cbn [ticks]. rewrite Hrun. cbn -[ticks replicate]. rewrite Hrest. cbn. eauto. }
  destruct conds as [|c0 conds]; [contradiction|].
  destruct (Hgen (length conds) ∅) as (ci' & Hrun & Ha).
  { rewrite lookup_empty. cbn. lia. }
  exists ci'. split; [|exact Ha].
  unfold new_Sequence. cbn [length] in *. replace (S (length conds) - 1)%nat with (length conds) by lia.
  exact Hrun.
Qed.

Lemma Sequence_one_child_per_tick_witness :
  exists ci',
    ticks (new_Sequence (map Condition [fun _ _ => true; fun _ _ => true]))
          "guard" Demo.world (replicate 2 1)
      = Ret (Sequence (map Condition [fun _ _ => true; fun _ _ => true]) ci', Demo.world,
             replicate (2 - 1) RUNNING ++ [SUCCESS]) /\
    ci' !! "guard" = Some 0%nat.
Proof.
  apply (Sequence_one_child_per_tick [fun _ _ => true; fun _ _ => true] "guard" Demo.world 1).
  - discriminate.
  - repeat constructor.
Defined.
End BTExtra.

(** ** Agents *)

Module AgExtra.
Import Ag AgSpec AgMore AgClaims.
Local Open Scope R_scope.

Lemma truncate_bounds (y : R) :
  (0 <= y -> 0 <= y - IZR (truncate y) < 1) /\
  (y < 0 -> -1 < y - IZR (truncate y) <= 0).
Proof.
  unfold truncate. split; intros Hy.
  - rewrite Rleb_true by assumption.
    destruct (base_Int_part y) as [H1 H2]. lra.
  - rewrite Rleb_false by assumption.
    destruct (base_Int_part (- y)) as [H1 H2]. rewrite opp_IZR. lra.
Qed.

Lemma js_rem_bounds (x : R) :
  exists q : Z, js_rem x 360 = x - 360 * IZR q /\
    (0 <= x -> 0 <= js_rem x 360 < 360) /\
    (x < 0 -> -360 < js_rem x 360 <= 0).
Proof.
  unfold js_rem. exists (truncate (x / 360)). split; [reflexivity|].
  destruct (truncate_bounds (x / 360)) as [Hpos Hneg].
  split; intros Hx.
  - assert (H : 0 <= x / 360) by (apply Rmult_le_pos; [lra | lra]).
    specialize (Hpos H). lra.
  - assert (H : x / 360 < 0) by lra.
    specialize (Hneg H). lra.
Qed.

(** X19: [getAngleDifference(a, b)] lies between -180 and 180 degrees and
    differs from [b - a] by a whole number of turns. *)
Theorem getAngleDifference_range (a b : R) :
  -180 <= getAngleDifference a b <= 180 /\
  exists turns : Z, getAngleDifference a b = b - a + 360 * IZR turns.
Proof.
  unfold getAngleDifference.
  destruct (js_rem_bounds (b - a)) as (q & Hq & Hpos & Hneg).
  set (r := js_rem (b - a) 360) in *.
  assert (Hr : -360 < r < 360).
  { destruct (Rle_dec 0 (b - a)) as [H|H]; [specialize (Hpos H) | specialize (Hneg ltac:(lra))]; lra. }
  clear Hpos Hneg.
  destruct (Rlt_dec 180 r) as [Hbig|Hbig].
  - rewrite (Rltb_true 180 r) by assumption.
    rewrite Rltb_false by lra. split; [lra|].
    exists (- q - 1)%Z. rewrite minus_IZR, opp_IZR. lra.
  - rewrite (Rltb_false 180 r) by lra.
    destruct (Rlt_dec r (-180)) as [Hsmall|Hsmall].
    + rewrite Rltb_true by assumption. split; [lra|].
      exists (- q + 1)%Z. rewrite plus_IZR, opp_IZR. lra.
    + rewrite Rltb_false by lra. split; [lra|].
      exists (- q)%Z. rewrite opp_IZR. lra.
Qed.








(** X22: the blackboard of an agent behaves as a map. A value that is set is
    the one read back and is reported as present; a cleared key reads as
    absent; neither operation touches another key, the path, the cursor, the
    target or the velocity of the agent. *)
Theorem blackboard_roundtrip (a : Agent) (key : string) (v : Value) :
  getBlackboardValue (setBlackboardValue a key v) key = Some v /\
  hasBlackboardValue (setBlackboardValue a key v) key = true /\
  getBlackboardValue (clearBlackboardValue a key) key = None /\
  hasBlackboardValue (clearBlackboardValue a key) key = false /\
  getBlackboardValue (clearBlackboardValue (setBlackboardValue a key v) key) key = None /\
  (forall other, other <> key ->
     getBlackboardValue (setBlackboardValue a key v) other = getBlackboardValue a other /\
     getBlackboardValue (clearBlackboardValue a key) other = getBlackboardValue a other /\
     hasBlackboardValue (setBlackboardValue a key v) other = hasBlackboardValue a other /\
     hasBlackboardValue (clearBlackboardValue a key) other = hasBlackboardValue a other) /\
  (forall k, hasBlackboardValue a k = true <-> exists x, getBlackboardValue a k = Some x) /\
  (getPath (setBlackboardValue a key v) = getPath a /\
   currentPathIndex (setBlackboardValue a key v) = currentPathIndex a /\
   getTarget (setBlackboardValue a key v) = getTarget a /\
   velocity (setBlackboardValue a key v) = velocity a) /\
  (getPath (clearBlackboardValue a key) = getPath a /\
   currentPathIndex (clearBlackboardValue a key) = currentPathIndex a /\
   getTarget (clearBlackboardValue a key) = getTarget a /\
   velocity (clearBlackboardValue a key) = velocity a).
Proof.
  unfold getBlackboardValue, hasBlackboardValue, setBlackboardValue, clearBlackboardValue,
    with_blackboard, getPath, getTarget.
  cbn [blackboard path currentPathIndex currentTarget velocity].
  split_and!; try reflexivity.
  - apply lookup_insert_eq.
  - rewrite lookup_insert_eq. apply bool_decide_eq_true_2. eauto.
  - apply lookup_delete_eq.
  - rewrite lookup_delete_eq. apply bool_decide_eq_false_2. intros [x Hx]. discriminate.
  - apply lookup_delete_eq.
  - intros other Hne.
    rewrite lookup_insert_ne by congruence. rewrite lookup_delete_ne by congruence. auto.
  - intros k. rewrite bool_decide_eq_true. reflexivity.
Qed.
End AgExtra.

(** ** The orchestrator and the behaviour factories *)

Module SysExtra.
Import BT BTSpec BTFacts Sys SysSpec SysClaims.
Local Open Scope R_scope.

(** X23: the registry of agents. [createAgent] registers a new agent (no
    tree, empty path, cursor 0, no target, zero velocity, empty blackboard)
    under the id; an id that is already registered keeps its place in the
    update order but its agent is replaced by the new one. [getAgent] finds
    exactly what is registered. [removeAgent] of an id that is not registered
    changes nothing, and removing an agent right after creating it under a
    new id gives back the state before. Behaviour trees and the mesh are
    never touched. *)
Theorem registry_roundtrip st id go c :
  getAgent (createAgent st id go c) id = Some (Ag.new_Agent go c) /\
  (forall id', id' <> id -> getAgent (createAgent st id go c) id' = getAgent st id') /\
  omap_keys (agents (system (createAgent st id go c))) =
    (if bool_decide (id ∈ omap_keys (agents (system st))) then omap_keys (agents (system st))
     else omap_keys (agents (system st)) ++ [id]) /\
  (getAgent st id = None -> removeAgent st id = st) /\
  (getAgent st id = None -> removeAgent (createAgent st id go c) id = st) /\
  trees (createAgent st id go c) = trees st /\
  navigationMesh (system (createAgent st id go c)) = navigationMesh (system st).
Proof.
  destruct st as [[ags nm init] tr en].
  unfold getAgent, createAgent, removeAgent, with_system.
  cbn [system agents trees navigationMesh isInitialized entropy].
  split_and!; try reflexivity.
  - apply omap_get_set_eq.
  - intros id' Hne. apply omap_get_set_ne. congruence.
  - apply omap_keys_set.
  - intros Hnone. now rewrite omap_delete_absent.
  - intros Hnone. now rewrite omap_delete_set_fresh.
Qed.

(** X24: [initialize] takes effect once. The first call stores the mesh it
    is given (or none) and marks the system as initialized; every later call
    changes nothing, whatever mesh it is given, while [setNavigationMesh]
    replaces the mesh at any time. Neither touches the agents. *)
Theorem initialize_once st m m' :
  isInitialized (system (initialize st m)) = true /\
  initialize (initialize st m) m' = initialize st m /\
  (isInitialized (system st) = false -> getNavigationMesh (initialize st m) = m) /\
  (isInitialized (system st) = true -> initialize st m = st) /\
  (forall g, getNavigationMesh (setNavigationMesh (initialize st m) g) = Some g) /\
  agents (system (initialize st m)) = agents (system st) /\
  (forall g, agents (system (setNavigationMesh st g)) = agents (system st) /\
             isInitialized (system (setNavigationMesh st g)) = isInitialized (system st)).
Proof.
  destruct st as [[ags nm init] tr en].
  unfold initialize, setNavigationMesh, getNavigationMesh, with_system.
  cbn [system agents trees navigationMesh isInitialized entropy].
  destruct init; cbn [system agents trees navigationMesh isInitialized entropy];
    split_and!; try reflexivity; try discriminate; auto.
Qed.

(** What the update of one agent keeps. *)
Lemma Agent_update_keeps st id dt st' :
  Agent_update st id dt = Ret st' ->
  omap_keys (agents (system st')) = omap_keys (agents (system st)) /\
  isInitialized (system st') = isInitialized (system st) /\
  dom (trees st') = dom (trees st) /\
  (forall id', id' <> id -> getAgent st' id' = getAgent st id') /\
  (forall a, getAgent st id = Some a -> Ag.behaviorTree a = None -> st' = st).
Proof.
  unfold Agent_update, getAgent.
  destruct (omap_get (agents (system st)) id) as [a|] eqn:Ha.
  - destruct (Ag.behaviorTree a) as [addr|] eqn:Hbt.
    + destruct (trees st !! addr) as [t|] eqn:Ht; [|discriminate].
      intros Hrun. apply bind_Ret in Hrun as ([[t' w'] s] & _ & Hrun).
      inversion Hrun; subst. cbn [system agents trees isInitialized]. split_and!.
      * eapply omap_keys_set_present; eauto.
      * reflexivity.
      * rewrite dom_insert_L. apply subseteq_union_1_L, singleton_subseteq_l.
        apply elem_of_dom. eauto.
      * intros id' Hne. apply omap_get_set_ne. congruence.
      * intros a0 E. inversion E; subst. congruence.
    + intros H. inversion H; subst. auto 10.
  - intros H. inversion H; subst. split_and!; auto.
Qed.

Lemma update_each_keeps ids : forall st dt st',
  update_each ids st dt = Ret st' ->
  omap_keys (agents (system st')) = omap_keys (agents (system st)) /\
  isInitialized (system st') = isInitialized (system st) /\
  dom (trees st') = dom (trees st) /\
  (forall id a, getAgent st id = Some a -> Ag.behaviorTree a = None ->
     getAgent st' id = Some a).
Proof.
  induction ids as [|id ids IH]; intros st dt st' Hrun; cbn [update_each] in Hrun.
  - inversion Hrun; subst. auto.
  - apply bind_Ret in Hrun as (st1 & Hone & Hrest).
    destruct (Agent_update_keeps _ _ _ _ Hone) as (K1 & I1 & D1 & O1 & N1).
    destruct (IH _ _ _ Hrest) as (K2 & I2 & D2 & N2).
    split_and!; try congruence.
    intros id0 a Hget Hnone. apply N2; [|assumption].
    destruct (decide (id0 = id)) as [->|Hne].
    + now rewrite (N1 a Hget Hnone).
    + now rewrite O1.
Qed.

(** X25: [update] does nothing before [initialize]. After it, an update that
    returns has kept the registered ids and their order, the set of
    behaviour trees and the initialized flag, and every agent without a
    behaviour tree is exactly as it was. *)
Theorem update_keeps_registry st dt :
  (isInitialized (system st) = false -> update st dt = Ret st) /\
  (forall st', update st dt = Ret st' ->
     omap_keys (agents (system st')) = omap_keys (agents (system st)) /\
     isInitialized (system st') = isInitialized (system st) /\
     dom (trees st') = dom (trees st) /\
     (forall id a, getAgent st id = Some a -> Ag.behaviorTree a = None ->
        getAgent st' id = Some a)) /\
  ((forall id a, getAgent st id = Some a -> Ag.behaviorTree a = None) ->
     update st dt = Ret st).
Proof.
  unfold update. split_and!.
  - intros H. now rewrite H.
  - intros st' Hrun. destruct (isInitialized (system st)) eqn:E.
    + apply update_each_keeps in Hrun. rewrite E in Hrun. exact Hrun.
    + inversion Hrun; subst. auto.
  - intros Hnone. destruct (isInitialized (system st)); [|reflexivity].
    assert (Hgen : forall ids, update_each ids st dt = Ret st).
    { induction ids as [|id ids IH]; [reflexivity|]. cbn [update_each].
      assert (Hone : Agent_update st id dt = Ret st).
      { unfold Agent_update. destruct (omap_get (agents (system st)) id) as [a|] eqn:Ha;
          [|reflexivity].
        now rewrite (Hnone id a Ha). }
      rewrite Hone. exact IH. }
    apply Hgen.
Qed.






Lemma moveTowards_returns a target dt :
  exists a' reached, Ag.moveTowards a (Some target) dt = Ret (a', reached).
Proof.
  unfold Ag.moveTowards. destruct (Ag.transform (Ag.gameObject a)); [|eauto].
  destruct (Rleb _ _); eauto.
Qed.

(** What [followPath] leaves of the path. *)
Lemma followPath_path a dt a' completed :
  Ag.followPath a dt = Ret (a', completed) ->
  Ag.blackboard a' = Ag.blackboard a /\ Ag.currentTarget a' = Ag.currentTarget a /\
  Ag.config a' = Ag.config a /\
  if completed then Ag.path a' = [] else Ag.path a' = Ag.path a /\ Ag.path a <> [].
Proof.
  unfold Ag.followPath. destruct (Ag.path a) as [|p0 rest] eqn:Hpath.
  - intros H. inversion H; subst. auto.
  - rewrite <- Hpath.
    destruct (Ag.moveTowards a (mjoin (Ag.path a !! Ag.currentPathIndex a)) dt)
      as [[a1 reached]| |] eqn:Hmove; try discriminate.
    destruct (AgClaims.moveTowards_keeps_path _ _ _ _ _ Hmove) as (Hp & _ & Hb & Ht & Hc & _).
    assert (Hne : Ag.path a <> []) by (rewrite Hpath; discriminate).
    destruct reached.
    + destruct (_ <=? _)%nat; intros H; inversion H; subst; cbn; auto.
    + intros H; inversion H; subst. auto.
Qed.

Lemma followPath_single_returns a p dt :
  exists a' completed, Ag.followPath (Ag.setPath a [Some p]) dt = Ret (a', completed).
Proof.
  assert (Hpath : Ag.path (Ag.setPath a [Some p]) = [Some p]) by reflexivity.
  assert (Hcur : Ag.currentPathIndex (Ag.setPath a [Some p]) = 0%nat) by reflexivity.
  destruct (moveTowards_returns (Ag.setPath a [Some p]) p dt) as (a' & reached & Hmove).
  generalize dependent (Ag.setPath a [Some p]). intros a0 Hpath Hcur Hmove.
  unfold Ag.followPath. rewrite Hpath, Hcur. cbn [lookup list_lookup mjoin option_join].
  change (mjoin (Some (Some p))) with (Some p). rewrite Hmove.
  destruct reached; [|eauto]. destruct (_ <=? _)%nat; eauto.
Qed.

Lemma wander_retarget_path radius minDistance w :
  Ag.path (self (wander_retarget radius minDistance w)) <> [] /\
  forall g, mesh w = Some g ->
    Ag.path (self (wander_retarget radius minDistance w))
      = [Some (Nav.getRandomPoint g (randoms w 0%nat))].
Proof.
  unfold wander_retarget. destruct (mesh w) as [g|]; cbn.
  - split; [discriminate|]. intros g' H. now inversion H.
  - split; discriminate.
Qed.

Lemma wander_action_running radius minDistance a w dt w2 s2 :
  wander_action radius minDistance a w dt = Ret (w2, s2) ->
  s2 = RUNNING /\ Ag.path (self w2) <> [] /\
  (Ag.path (self w) = [] -> forall g, mesh w = Some g ->
     Ag.path (self w2) = [Some (Nav.getRandomPoint g (randoms w 0%nat))]).
Proof.
  unfold wander_action, Ag.getPath. intros Hact.
  destruct (Ag.path (self w)) as [|p0 rest] eqn:Hpath; cbn [length Nat.eqb] in Hact.
  - inversion Hact; subst. destruct (wander_retarget_path radius minDistance w) as [Hne Hg].
    auto.
  - apply bind_Ret in Hact as ([a1 completed] & Hfollow & Hact). cbn in Hact.
    apply followPath_path in Hfollow as (_ & _ & _ & Hp).
    destruct completed; inversion Hact; subst; (split; [reflexivity|]); (split; [|discriminate]).
    + apply wander_retarget_path.
    + cbn [self with_self]. destruct Hp as [-> _]. rewrite Hpath. discriminate.
Qed.

(** X27: the wander behaviour never finishes. Every tick of the node that
    returns gives [RUNNING], leaves the agent active in the node and with a
    path to follow; an agent that had no path is given one waypoint, which
    with a navigation mesh is a point of the mesh chosen by [Math.random()]. *)
Theorem wander_never_finishes radius minDistance n a w dt n' w' s :
  pristine n = createWanderBehavior radius minDistance ->
  execute n a w dt = Ret (n', w', s) ->
  s = RUNNING /\ active a n' /\ Ag.path (self w') <> [] /\
  (Ag.path (self w) = [] ->
     forall g, mesh w = Some g ->
       Ag.path (self w') = [Some (Nav.getRandomPoint g (randoms w 0%nat))]).
Proof.
  intros Hn Hrun. apply pristine_Action in Hn as [t ->].
  cbn [execute run_hook] in Hrun.
  assert (Henter : (if negb (default false (t !! a)) then Ret w else Ret w) = Ret w)
    by (now destruct (default false (t !! a))).
  rewrite Henter in Hrun. clear Henter.
  apply bind_Ret in Hrun as (w1 & E & Hrun). inversion E; subst w1. clear E.
  apply bind_Ret in Hrun as ([w2 s2] & Hact & Hrun). cbn in Hrun.
  apply wander_action_running in Hact as (-> & Hpath & Hfirst).
  rewrite decide_True in Hrun by reflexivity. inversion Hrun; subst.
  split_and!; auto.
  eexists _, _, _, _. split; [reflexivity|]. apply lookup_insert_eq.
Qed.

Lemma wander_never_finishes_witness :
  exists n' w',
    execute (createWanderBehavior 10 5) "guard" Demo.world 0.1 = Ret (n', w', RUNNING) /\
    active "guard" n' /\ Ag.path (self w') <> [].
Proof.
  assert (Hrun : exists n' w',
            execute (createWanderBehavior 10 5) "guard" Demo.world 0.1 = Ret (n', w', RUNNING)).
  { eexists _, _. reflexivity. }
  destruct Hrun as (n' & w' & Hrun). exists n', w'. split; [exact Hrun|].
  destruct (wander_never_finishes 10 5 (createWanderBehavior 10 5) "guard" Demo.world 0.1
              n' w' RUNNING eq_refl Hrun) as (_ & Hactive & Hpath & _).
  split; assumption.
Defined.

(** X28: patrolling without patrol points. Without [loop] the node returns
    [SUCCESS] on its first tick and leaves the agent with an empty path and
    [patrolIndex] 0. With [loop] the action takes [points[0]], which is
    [undefined], as its waypoint: for an agent with a transform the tick
    raises a [TypeError] in [moveTowards]; an agent without a transform
    stays [RUNNING] with that waypoint on its path. *)
Theorem patrol_without_points a w dt :
  (exists n' w',
     execute (createPatrolBehavior [] false) a w dt = Ret (n', w', SUCCESS) /\
     Ag.path (self w') = [] /\
     Ag.blackboard (self w') !! "patrolIndex" = Some (Ag.VIndex 0)) /\
  (is_Some (Ag.transform (Ag.gameObject (self w))) ->
     execute (createPatrolBehavior [] true) a w dt = TypeError) /\
  (Ag.transform (Ag.gameObject (self w)) = None ->
     exists n' w',
       execute (createPatrolBehavior [] true) a w dt = Ret (n', w', RUNNING) /\
       Ag.path (self w') = [None]).
Proof.
  unfold createPatrolBehavior, new_Action. split_and!.
  - cbn [execute]. keys. unfold patrol_action, Ag.hasBlackboardValue, Ag.getBlackboardValue.
    keys. eexists _, _. split; [reflexivity|]. keys. split; reflexivity.
  - intros [tr Htr]. cbn [execute]. keys.
    unfold patrol_action, Ag.hasBlackboardValue, Ag.getBlackboardValue. keys.
    unfold Ag.followPath, Ag.moveTowards. keys. rewrite Htr. reflexivity.
  - intros Htr. cbn [execute]. keys.
    unfold patrol_action, Ag.hasBlackboardValue, Ag.getBlackboardValue. keys.
    unfold Ag.followPath, Ag.moveTowards. keys. rewrite Htr. keys.
    eexists _, _. split; reflexivity.
Qed.

Ltac keys_folded :=
  cbn -[Rleb Rltb Ag.followPath];
  repeat (first [ rewrite decide_True by reflexivity
                | rewrite decide_False by discriminate
                | rewrite lookup_insert_eq
                | rewrite lookup_insert_ne by discriminate
                | rewrite lookup_delete_eq
                | rewrite lookup_empty ];
          cbn -[Rleb Rltb Ag.followPath]).

(** X29: the first tick of a chase. Entering the node sets [chaseTimer] to
    0. When the first time step is shorter than [updateRate] the selector is
    not consulted: an agent that has no target and no path gets neither, the
    node returns [SUCCESS] and its exit hook removes what the entry set up.
    When the first step reaches [updateRate] and the selector finds nothing,
    the node returns [FAILURE], likewise torn down; when the selector finds a
    target, the agent takes it as its target and the node returns
    [RUNNING] with [chaseTimer] back at 0. *)
Theorem chase_first_tick fuel sel updateRate a w dt :
  (0 + dt < updateRate ->
   Ag.currentTarget (self w) = None -> Ag.path (self w) = [] ->
   exists n' w',
     execute (createChaseBehavior fuel sel updateRate) a w dt = Ret (n', w', SUCCESS) /\
     chase_torn_down (self w') /\ ~ active a n') /\
  (updateRate <= 0 + dt -> (forall v, sel a v = None) ->
   exists n' w',
     execute (createChaseBehavior fuel sel updateRate) a w dt = Ret (n', w', FAILURE) /\
     chase_torn_down (self w') /\ ~ active a n') /\
  (updateRate <= 0 + dt -> mesh w = None ->
   forall target, (forall v, sel a v = Some target) ->
   exists n' w',
     execute (createChaseBehavior fuel sel updateRate) a w dt = Ret (n', w', RUNNING) /\
     Ag.currentTarget (self w') = Some target /\
     Ag.blackboard (self w') !! "chaseTimer" = Some (Ag.VNumber 0) /\
     active a n').
Proof.
  unfold createChaseBehavior, new_Action. split_and!.
  - intros Hshort Htarget Hpath. cbn [execute]. keys.
    unfold chase_action, Ag.hasBlackboardValue, Ag.getBlackboardValue. keys.
    rewrite Rleb_false by assumption. unfold Ag.followPath. keys. rewrite Hpath. keys.
    unfold Ag.getTarget. keys. rewrite Htarget. keys.
    eexists _, _. split; [reflexivity|]. split.
    + unfold chase_torn_down. keys. auto.
    + intros (f & en & ex & t & E & Ht). inversion E; subst. revert Ht. keys. discriminate.
  - intros Hlong Hsel. cbn [execute]. keys.
    unfold chase_action, Ag.hasBlackboardValue, Ag.getBlackboardValue. keys.
    rewrite Rleb_true by assumption. rewrite Hsel. keys.
    eexists _, _. split; [reflexivity|]. split.
    + unfold chase_torn_down. keys. auto.
    + intros (f & en & ex & t & E & Ht). inversion E; subst. revert Ht. keys. discriminate.
  - intros Hlong Hmesh target Hsel. cbn [execute]. keys_folded.
    unfold chase_action, Ag.hasBlackboardValue, Ag.getBlackboardValue. keys_folded.
    rewrite Rleb_true by assumption. rewrite Hsel, Hmesh.
    match goal with |- context [Ag.followPath ?x dt] =>
      assert (Hx : exists y, x = Ag.setPath y [Some target] /\
                   Ag.blackboard y !! "chaseTimer" = Some (Ag.VNumber 0) /\
                   Ag.currentTarget y = Some target)
        by (eexists; split; [reflexivity|]; split; [apply lookup_insert_eq | reflexivity]);
      destruct Hx as (y & -> & Hy1 & Hy2)
    end.
    destruct (followPath_single_returns y target dt) as (a1 & completed & Hfollow).
    pose proof (followPath_path _ _ _ _ Hfollow) as (Hb & Ht & _).
    cbn [Ag.setPath Ag.blackboard Ag.currentTarget] in Hb, Ht.
    rewrite Hfollow. keys_folded. unfold Ag.getTarget. rewrite Ht, Hy2. keys_folded.
    eexists _, _. split; [reflexivity|]. keys_folded. split; [congruence|].
    split; [congruence|].
    eexists _, _, _, _. split; [reflexivity|]. keys_folded. reflexivity.
Qed.

Lemma chase_first_tick_witness :
  exists n' w',
    execute (createChaseBehavior 4 (fun _ _ => None) 0.5) "guard" Demo.world 0.1
      = Ret (n', w', SUCCESS) /\
    chase_torn_down (self w') /\ ~ active "guard" n'.
Proof.
  apply (proj1 (chase_first_tick 4 (fun _ _ => None) 0.5 "guard" Demo.world 0.1)).
  - lra.
  - reflexivity.
  - reflexivity.
Defined.

(** X30: the flee behaviour. Its tick always returns. It gives [SUCCESS] and
    leaves the world as it is when the selector names no threat or the
    threat is at least [fleeDistance] away, [FAILURE] when there is a threat
    but the agent has no transform, and [RUNNING] otherwise, that is exactly
    while a threat is closer than [fleeDistance]; in that case the path is
    replaced by a single waypoint (which is dropped again if it is reached in
    the same tick) and the blackboard, the target and the mesh are as
    before. *)
Theorem flee_status sel fleeDistance a w dt :
  exists w' s,
    flee_action sel fleeDistance a w dt = Ret (w', s) /\
    (s = SUCCESS <->
       sel a w = None \/
       exists target tr, sel a w = Some target /\
         Ag.transform (Ag.gameObject (self w)) = Some tr /\
         fleeDistance <= Nav.heuristic target (Ag.t_position tr)) /\
    (s = FAILURE <->
       exists target, sel a w = Some target /\ Ag.transform (Ag.gameObject (self w)) = None) /\
    (s <> RUNNING -> w' = w) /\
    (s = RUNNING ->
       mesh w' = mesh w /\ (length (Ag.path (self w')) <= 1)%nat /\
       Ag.blackboard (self w') = Ag.blackboard (self w) /\
       Ag.currentTarget (self w') = Ag.currentTarget (self w)).
Proof.
  unfold flee_action. destruct (sel a w) as [target|] eqn:Hsel.
  - destruct (Ag.transform (Ag.gameObject (self w))) as [tr|] eqn:Htr.
    + change (sqrt _) with (Nav.heuristic target (Ag.t_position tr)).
      set (distance := Nav.heuristic target (Ag.t_position tr)).
      destruct (Rle_dec fleeDistance distance) as [Hfar|Hnear].
      * rewrite Rleb_true by assumption. exists w, SUCCESS. split; [reflexivity|].
        split_and!; try discriminate; auto.
        -- split; [intros _; right; eauto | reflexivity].
        -- split; [discriminate | intros (t & E & ?); discriminate].
      * rewrite Rleb_false by lra.
        match goal with |- context [Ag.followPath ?x dt] =>
          assert (Hfollow : exists p, x = Ag.setPath (self w) [Some p])
            by (destruct (mesh w); eauto);
          destruct Hfollow as (p & ->)
        end.
        destruct (followPath_single_returns (self w) p dt) as (a1 & completed & Hfollow).
        pose proof (followPath_path _ _ _ _ Hfollow) as (Hb & Ht & _ & Hp).
        rewrite Hfollow. cbn. exists (with_self w a1), RUNNING. split; [reflexivity|].
        split_and!; try contradiction; auto.
        -- split; [discriminate|]. intros [E|(t & tr' & E1 & E2 & Hle)]; [discriminate|].
           inversion E1; inversion E2; subst. contradiction.
        -- split; [discriminate | intros (t & E & ?); discriminate].
        -- intros _. cbn [mesh self with_self]. split; [reflexivity|].
           split; [|auto]. destruct completed; [rewrite Hp; cbn; lia|].
           destruct Hp as [-> _]. cbn. lia.
    + exists w, FAILURE. split; [reflexivity|]. split_and!; try discriminate; auto.
      * split; [discriminate|]. intros [E|(t & tr' & _ & E & _)]; discriminate.
      * split; [eauto | reflexivity].
  - exists w, SUCCESS. split; [reflexivity|]. split_and!; try discriminate; auto.
    + split; [auto | reflexivity].
    + split; [discriminate | intros (t & E & _); discriminate].
Qed.
End SysExtra.
